(** * Cycle detection and cycle elimination of [useCycleDetection.js]

    A shallow embedding of the three traversals of the hook
    ([runDetection], [runDetectionWithSteps] in its two versions, and
    [removeCycles]) together with the properties of the specification.

    Modelling choices, all taken from the source:
    - a graph is a JavaScript object whose own properties hold arrays of
      node ids.  Objects and arrays live in a heap ([Heap]) and are
      passed by reference, so that a write to an array is visible through
      every reference to it;
    - a property read [graphData[k]] is a lookup among the own properties
      of the object (properties inherited from [Object.prototype] are
      outside the model), and node ids are strings, for which [String(n)]
      is the identity;
    - a [Set] is the list of its elements in insertion order;
    - the recursion of [dfs] is bounded by a fuel that only counts the
      depth of the recursion; [None] stands for a run that did not return
      normally, and the theorems show that this never happens. *)

From stdpp Require Import gmap strings list fin_maps relations pretty.
From Stdlib Require Import ZArith Lia.

Local Open Scope string_scope.

(** ** JavaScript values used by the hook *)

Module Js.

(** [new Set()], [has], [add], [delete]: iteration order is insertion
    order, an element is present at most once. *)
Definition set_has (s : list string) (x : string) : bool :=
  bool_decide (x ∈ s).

Definition set_add (s : list string) (x : string) : list string :=
  if set_has s x then s else s ++ [x].

Definition set_delete (s : list string) (x : string) : list string :=
  filter (λ y, y ≠ x) s.

(** [Array.prototype.push], [pop] (the popped value is never used). *)
Definition push {A} (l : list A) (x : A) : list A := l ++ [x].

Definition pop {A} (l : list A) : list A := take (length l - 1) l.

(** [indexOf]: index of the first occurrence, [-1] when absent. *)
Fixpoint indexOf (l : list string) (x : string) : Z :=
  match l with
  | [] => (-1)%Z
  | y :: l' =>
      if decide (y = x) then 0%Z
      else let i := indexOf l' x in
           if (i <? 0)%Z then (-1)%Z else (i + 1)%Z
  end.

(** [slice(start)]: a negative [start] counts from the end. *)
Definition slice {A} (l : list A) (start : Z) : list A :=
  if (start <? 0)%Z
  then drop (Z.to_nat (Z.max (Z.of_nat (length l) + start) 0)) l
  else drop (Z.to_nat start) l.

(** [splice(i, 1)] *)
Definition splice1 {A} (l : list A) (i : nat) : list A := delete i l.

(** [join(sep)] *)
Definition join (sep : string) (l : list string) : string :=
  String.concat sep l.

(** A template hole [${x}] whose value may be [undefined]. *)
Definition show (x : option string) : string := default "undefined" x.

(** The double-quote character *)
Definition dquote : string := String (Ascii.ascii_of_nat 34) EmptyString.

End Js.

(** ** The heap: objects and arrays behind references *)

Abbreviation loc := nat.

Record Heap := mkHeap {
  objs : gmap loc (gmap string loc);   (* object: own property -> array reference *)
  arrs : gmap loc (list string)        (* array: its elements *)
}.

(** The graph a reference denotes in a heap: what [graphData[k]] yields
    for every [k]. *)
Definition graph_at (h : Heap) (g : loc) : gmap string (list string) :=
  omap (λ l, arrs h !! l) (default ∅ (objs h !! g)).

(** [graphData[k] || []] *)
Definition neighbors_of (h : Heap) (g : loc) (k : string) : list string :=
  default [] (graph_at h g !! k).

(** Every node id the graph mentions, as a key or as a successor. *)
Definition node_list (G : gmap string (list string)) : list string :=
  concat ((λ kl : string * list string, kl.1 :: kl.2) <$> map_to_list G).

(** Depth bound of the recursion: one frame per node on the path, and
    one more for the call that finds its node on the path or visited. *)
Definition fuel_for (G : gmap string (list string)) : nat :=
  S (S (length (node_list G))).

(** ** Results *)

Record CycleEdge := mkCycleEdge {
  ce_source : option string;   (* [pathStack[pathStack.length - 1]] *)
  ce_target : string
}.

Record Edge := mkEdge { source : string; target : string }.

Inductive Action :=
| START | ENTER_NODE | CHECK_IN_STACK | CYCLE_FOUND | SKIP_CYCLE
| CHECK_VISITED | SKIP_VISITED | ADD_TO_STACK | EXPLORE_NEIGHBOR
| BACKTRACK | MARK_SAFE | COMPLETE.

(** The [extra] properties spread into a step record. *)
Inductive Extra :=
| NoExtra
| CycleExtra (cycleNode : string)           (* isCycle: true, cycleNode *)
| NeighborExtra (targetNeighbor : string)
| SkipExtra (skippedEdge : CycleEdge).

Record Step := mkStep {
  action : Action;
  node : string;
  explanation : string;
  explanationZh : string;
  s_visited : list string;
  s_recursionStack : list string;
  s_pathStack : list string;
  extra : Extra
}.

(** The object a detector returns; an absent property is [None]. *)
Record Result := mkResult {
  found : bool;
  error : option string;
  path : option (list string);
  loopPath : option (list string);
  cycleEdge : option CycleEdge;
  handled : option bool;
  skippedEdges : option (list CycleEdge);
  steps : option (list Step)
}.

Definition not_found_error (startNode : string) : string :=
  "Node " ++ Js.dquote ++ startNode ++ Js.dquote ++ " not found in graph".

(** ** The traversal state shared by the detectors *)

Record DState := mkD {
  heap : Heap;
  visited : list string;
  recursionStack : list string;
  pathStack : list string
}.

(** [recursionStack.add(n); pathStack.push(n)] *)
Definition enter (st : DState) (n : string) : DState :=
  mkD (heap st) (visited st)
      (Js.set_add (recursionStack st) n) (Js.push (pathStack st) n).

(** [recursionStack.delete(n); pathStack.pop(); visited.add(n)] *)
Definition leave (st : DState) (n : string) : DState :=
  mkD (heap st) (Js.set_add (visited st) n)
      (Js.set_delete (recursionStack st) n) (Js.pop (pathStack st)).

(** ** [runDetection] *)

Inductive DfsResult :=
| NotFound                      (* { found: false } *)
| Found (culprit : string).     (* { found: true, culprit } *)

(** The [for (const neighbor of neighbors)] loop of [dfs]; [rec] is the
    recursive call. *)
Fixpoint dfs_loop (rec : DState → string → option (DState * DfsResult))
    (neighbors : list string) (st : DState) : option (DState * DfsResult) :=
  match neighbors with
  | [] => Some (st, NotFound)
  | neighbor :: rest =>
      match rec st neighbor with
      | None => None
      | Some (st', Found c) => Some (st', Found c)
      | Some (st', NotFound) => dfs_loop rec rest st'
      end
  end.

Fixpoint dfs (graphData : loc) (fuel : nat) (st : DState) (currentNode : string)
    : option (DState * DfsResult) :=
  match fuel with
  | 0 => None
  | S fuel' =>
      if Js.set_has (recursionStack st) currentNode then
        Some (st, Found currentNode)
      else if Js.set_has (visited st) currentNode then
        Some (st, NotFound)
      else
        let st1 := enter st currentNode in
        let neighbors := neighbors_of (heap st1) graphData currentNode in
        match dfs_loop (dfs graphData fuel') neighbors st1 with
        | None => None
        | Some (st2, Found c) => Some (st2, Found c)
        | Some (st2, NotFound) => Some (leave st2 currentNode, NotFound)
        end
  end.

Definition runDetection (h : Heap) (graphData : loc) (startNode : string)
    : option (Heap * Result) :=
  let st0 := mkD h [] [] [] in
  match graph_at h graphData !! startNode with
  | None =>
      Some (h, mkResult false (Some (not_found_error startNode))
                        None None None None None None)
  | Some _ =>
      match dfs graphData (fuel_for (graph_at h graphData)) st0 startNode with
      | None => None
      | Some (st, Found culprit) =>
          let loopStartIndex := Js.indexOf (pathStack st) culprit in
          let actualLoop := Js.push (Js.slice (pathStack st) loopStartIndex) culprit in
          Some (heap st, mkResult true None (Some (pathStack st)) (Some actualLoop)
                                  None None None None)
      | Some (st, NotFound) =>
          Some (heap st, mkResult false None None None None None None None)
      end
  end.

(** ** [runDetectionWithSteps]: state and [captureState]

    Both versions of the hook declare the same locals and the same
    [captureState] helper; [skippedLog] is the local [skippedEdges] of
    the skip-and-continue version and stays empty in the other one. *)

Record TState := mkT {
  dstate : DState;
  stepsLog : list Step;
  skippedLog : list CycleEdge
}.

Definition on_dstate (f : DState → DState) (ts : TState) : TState :=
  mkT (f (dstate ts)) (stepsLog ts) (skippedLog ts).

(** [stepsLog.push({action, node, explanation, explanationZh,
     visited: new Set(visited), recursionStack: new Set(recursionStack),
     pathStack: [...pathStack], ...extra})] *)
Definition captureState (ts : TState) (a : Action) (n : string)
    (expl explZh : string) (ex : Extra) : TState :=
  mkT (dstate ts)
      (Js.push (stepsLog ts)
         (mkStep a n expl explZh
                 (visited (dstate ts)) (recursionStack (dstate ts))
                 (pathStack (dstate ts)) ex))
      (skippedLog ts).

(** The records whose text is the same in both versions. *)
Module Emit.

Definition start (ts : TState) (startNode : string) : TState :=
  captureState ts START startNode
    ("> init dfs --start=" ++ Js.dquote ++ startNode ++ Js.dquote)
    ("初始化深度優先搜尋，起點=" ++ Js.dquote ++ startNode ++ Js.dquote)
    NoExtra.

Definition enter_node (ts : TState) (currentNode : string) : TState :=
  captureState ts ENTER_NODE currentNode
    ("> push node[" ++ currentNode ++ "]")
    ("進入節點 " ++ currentNode)
    NoExtra.

Definition check_in_stack (ts : TState) (currentNode : string) : TState :=
  captureState ts CHECK_IN_STACK currentNode
    ("> check stack.contains(" ++ currentNode ++ ") => ["
       ++ Js.join "," (recursionStack (dstate ts)) ++ "]")
    ("檢查堆疊是否包含 " ++ currentNode)
    NoExtra.

Definition check_visited (ts : TState) (currentNode : string) : TState :=
  captureState ts CHECK_VISITED currentNode
    ("> check visited.has(" ++ currentNode ++ ") => {"
       ++ Js.join "," (visited (dstate ts)) ++ "}")
    ("檢查是否已訪問 " ++ currentNode)
    NoExtra.

Definition skip_visited (ts : TState) (currentNode : string) : TState :=
  captureState ts SKIP_VISITED currentNode
    ("> skip node[" ++ currentNode ++ "] -- already verified")
    ("跳過節點 " ++ currentNode ++ "，已驗證安全")
    NoExtra.

Definition add_to_stack (ts : TState) (currentNode : string) : TState :=
  captureState ts ADD_TO_STACK currentNode
    ("> stack.push(" ++ currentNode ++ ") => ["
       ++ Js.join "," (recursionStack (dstate ts)) ++ "]")
    ("將 " ++ currentNode ++ " 加入堆疊")
    NoExtra.

Definition explore_neighbor (ts : TState) (currentNode neighborStr : string)
    : TState :=
  captureState ts EXPLORE_NEIGHBOR currentNode
    ("> traverse edge[" ++ currentNode ++ "]->[" ++ neighborStr ++ "]")
    ("遍歷邊 " ++ currentNode ++ " -> " ++ neighborStr)
    (NeighborExtra neighborStr).

Definition backtrack (ts : TState) (currentNode : string) : TState :=
  captureState ts BACKTRACK currentNode
    ("> stack.pop() -- backtrack from node[" ++ currentNode ++ "]")
    ("回溯，從堆疊移除 " ++ currentNode)
    NoExtra.

Definition mark_safe (ts : TState) (currentNode : string) : TState :=
  captureState ts MARK_SAFE currentNode
    ("> visited.add(" ++ currentNode ++ ") -- node verified safe")
    ("節點 " ++ currentNode ++ " 標記為安全")
    NoExtra.

Definition complete_clean (ts : TState) (startNode : string) : TState :=
  captureState ts COMPLETE startNode
    "> exit 0 -- no cycles detected, all paths verified"
    "檢測完成，無循環，所有路徑安全"
    NoExtra.

End Emit.

(** ** [runDetectionWithSteps], stop-at-first-cycle version
    (patlytics-demo/src/hooks/useCycleDetection.js) *)

Module StopAtFirst.

Inductive StepResult :=
| SNotFound                                            (* { found: false } *)
| SFound (culprit : string) (cycleEdge : CycleEdge).   (* { found: true, culprit, cycleEdge } *)

Fixpoint dfs_loop (rec : TState → string → option (TState * StepResult))
    (currentNode : string) (neighbors : list string) (ts : TState)
    : option (TState * StepResult) :=
  match neighbors with
  | [] => Some (ts, SNotFound)
  | neighborStr :: rest =>
      let ts1 := Emit.explore_neighbor ts currentNode neighborStr in
      match rec ts1 neighborStr with
      | None => None
      | Some (ts2, SFound c e) => Some (ts2, SFound c e)
      | Some (ts2, SNotFound) => dfs_loop rec currentNode rest ts2
      end
  end.

Fixpoint dfs (graphData : loc) (fuel : nat) (ts : TState) (currentNode : string)
    : option (TState * StepResult) :=
  match fuel with
  | 0 => None
  | S fuel' =>
      let ts := Emit.enter_node ts currentNode in
      let ts := Emit.check_in_stack ts currentNode in
      if Js.set_has (recursionStack (dstate ts)) currentNode then
        let ts :=
          captureState ts CYCLE_FOUND currentNode
            ("[!] FATAL: cycle detected @ node[" ++ currentNode ++ "] | path: "
               ++ Js.join "->" (pathStack (dstate ts)) ++ "->" ++ currentNode)
            ("致命錯誤：在節點 " ++ currentNode ++ " 發現循環")
            (CycleExtra currentNode) in
        let sourceNode := last (pathStack (dstate ts)) in
        Some (ts, SFound currentNode (mkCycleEdge sourceNode currentNode))
      else
        let ts := Emit.check_visited ts currentNode in
        if Js.set_has (visited (dstate ts)) currentNode then
          Some (Emit.skip_visited ts currentNode, SNotFound)
        else
          let ts := on_dstate (λ d, enter d currentNode) ts in
          let ts := Emit.add_to_stack ts currentNode in
          let neighbors := neighbors_of (heap (dstate ts)) graphData currentNode in
          match dfs_loop (dfs graphData fuel') currentNode neighbors ts with
          | None => None
          | Some (ts, SFound c e) => Some (ts, SFound c e)
          | Some (ts, SNotFound) =>
              let ts := Emit.backtrack ts currentNode in
              let ts := on_dstate (λ d, leave d currentNode) ts in
              let ts := Emit.mark_safe ts currentNode in
              Some (ts, SNotFound)
          end
  end.

Definition runDetectionWithSteps (h : Heap) (graphData : loc) (startNode : string)
    : option (Heap * Result) :=
  let ts0 := mkT (mkD h [] [] []) [] [] in
  let ts0 := Emit.start ts0 startNode in
  match graph_at h graphData !! startNode with
  | None =>
      Some (h, mkResult false (Some (not_found_error startNode))
                        None None None None None (Some (stepsLog ts0)))
  | Some _ =>
      match dfs graphData (fuel_for (graph_at h graphData)) ts0 startNode with
      | None => None
      | Some (ts, SFound culprit edge) =>
          let pathStack := pathStack (dstate ts) in
          let loopStartIndex := Js.indexOf pathStack culprit in
          let actualLoop := Js.push (Js.slice pathStack loopStartIndex) culprit in
          Some (heap (dstate ts),
                mkResult true None (Some pathStack) (Some actualLoop)
                         (Some edge) None None (Some (stepsLog ts)))
      | Some (ts, SNotFound) =>
          let ts := Emit.complete_clean ts startNode in
          Some (heap (dstate ts),
                mkResult false None None None None None None (Some (stepsLog ts)))
      end
  end.

End StopAtFirst.

(** ** [runDetectionWithSteps], skip-and-continue version
    (the second copy of the hook among the sources) *)

Module SkipAndContinue.

Inductive StepResult :=
| KNotFound                           (* { found: false } *)
| KSkipped (cycleEdge : CycleEdge).   (* { found: true, cycleEdge, skipped: true } *)

(** The loop ignores what the recursive call returns. *)
Fixpoint dfs_loop (rec : TState → string → option (TState * StepResult))
    (currentNode : string) (neighbors : list string) (ts : TState)
    : option TState :=
  match neighbors with
  | [] => Some ts
  | neighborStr :: rest =>
      let ts1 := Emit.explore_neighbor ts currentNode neighborStr in
      match rec ts1 neighborStr with
      | None => None
      | Some (ts2, _) => dfs_loop rec currentNode rest ts2
      end
  end.

Fixpoint dfs (graphData : loc) (fuel : nat) (ts : TState) (currentNode : string)
    : option (TState * StepResult) :=
  match fuel with
  | 0 => None
  | S fuel' =>
      let ts := Emit.enter_node ts currentNode in
      let ts := Emit.check_in_stack ts currentNode in
      if Js.set_has (recursionStack (dstate ts)) currentNode then
        let ts :=
          captureState ts CYCLE_FOUND currentNode
            ("[!] CYCLE DETECTED @ node[" ++ currentNode ++ "] | path: "
               ++ Js.join "->" (pathStack (dstate ts)) ++ "->" ++ currentNode)
            ("偵測到循環：節點 " ++ currentNode)
            (CycleExtra currentNode) in
        let sourceNode := last (pathStack (dstate ts)) in
        let backEdge := mkCycleEdge sourceNode currentNode in
        let ts := mkT (dstate ts) (stepsLog ts) (Js.push (skippedLog ts) backEdge) in
        let ts :=
          captureState ts SKIP_CYCLE currentNode
            ("[✓] SKIP edge[" ++ Js.show sourceNode ++ "]->[" ++ currentNode
               ++ "] -- avoiding infinite loop")
            ("跳過邊 " ++ Js.show sourceNode ++ "->" ++ currentNode ++ "，避免無限迴圈")
            (SkipExtra backEdge) in
        Some (ts, KSkipped backEdge)
      else
        let ts := Emit.check_visited ts currentNode in
        if Js.set_has (visited (dstate ts)) currentNode then
          Some (Emit.skip_visited ts currentNode, KNotFound)
        else
          let ts := on_dstate (λ d, enter d currentNode) ts in
          let ts := Emit.add_to_stack ts currentNode in
          let neighbors := neighbors_of (heap (dstate ts)) graphData currentNode in
          match dfs_loop (dfs graphData fuel') currentNode neighbors ts with
          | None => None
          | Some ts =>
              let ts := Emit.backtrack ts currentNode in
              let ts := on_dstate (λ d, leave d currentNode) ts in
              let ts := Emit.mark_safe ts currentNode in
              Some (ts, KNotFound)
          end
  end.

Definition complete_message (n : nat) : string :=
  "[✓] COMPLETE: traversal finished. " ++ pretty n
    ++ " cycle(s) detected and skipped.".

Definition complete_messageZh (n : nat) : string :=
  "完成：遍歷結束。偵測到 " ++ pretty n ++ " 個循環並成功跳過。".

Definition runDetectionWithSteps (h : Heap) (graphData : loc) (startNode : string)
    : option (Heap * Result) :=
  let ts0 := mkT (mkD h [] [] []) [] [] in
  let ts0 := Emit.start ts0 startNode in
  match graph_at h graphData !! startNode with
  | None =>
      Some (h, mkResult false (Some (not_found_error startNode))
                        None None None None None (Some (stepsLog ts0)))
  | Some _ =>
      match dfs graphData (fuel_for (graph_at h graphData)) ts0 startNode with
      | None => None
      | Some (ts, _) =>
          if decide (0 < length (skippedLog ts)) then
            let ts :=
              captureState ts COMPLETE startNode
                (complete_message (length (skippedLog ts)))
                (complete_messageZh (length (skippedLog ts)))
                NoExtra in
            Some (heap (dstate ts),
                  mkResult true None None None None (Some true)
                           (Some (skippedLog ts)) (Some (stepsLog ts)))
          else
            let ts := Emit.complete_clean ts startNode in
            Some (heap (dstate ts),
                  mkResult false None None None None None None (Some (stepsLog ts)))
      end
  end.

End SkipAndContinue.

(** ** [removeCycles] *)

(** [JSON.stringify(graphData)]: the text, as the value it denotes. *)
Definition json_stringify (h : Heap) (g : loc) : gmap string (list string) :=
  graph_at h g.

(** [JSON.parse(text)]: a new object whose properties hold new arrays. *)
Fixpoint alloc_props (kvs : list (string * list string)) (h : Heap)
    : gmap string loc * Heap :=
  match kvs with
  | [] => (∅, h)
  | (k, a) :: rest =>
      let '(tbl, h1) := alloc_props rest h in
      let l := fresh (dom (arrs h1)) in
      (<[k := l]> tbl, mkHeap (objs h1) (<[l := a]> (arrs h1)))
  end.

Definition json_parse (text : gmap string (list string)) (h : Heap) : Heap * loc :=
  let '(tbl, h1) := alloc_props (map_to_list text) h in
  let o := fresh (dom (objs h1)) in
  (mkHeap (<[o := tbl]> (objs h1)) (arrs h1), o).

(** [obj[k].splice(i, 1)]; [None] when [obj[k]] is [undefined]
    (a TypeError). *)
Definition splice_at (h : Heap) (obj : loc) (k : string) (i : nat) : option Heap :=
  tbl ← objs h !! obj;
  l ← tbl !! k;
  a ← arrs h !! l;
  Some (mkHeap (objs h) (<[l := Js.splice1 a i]> (arrs h))).

Record RState := mkR {
  rd : DState;                 (* heap, visited, recursionStack, pathStack *)
  removedLog : list Edge       (* the local removedEdges *)
}.

Module RemoveCycles.

(** The loop [for (let i = neighbors.length - 1; i >= 0; i--)], with
    [k = i + 1]; [neighbors] is the array [safeGraph[currentNode]]
    itself, read at every iteration as the loop leaves it. *)
Fixpoint dfs_loop (rec : RState → string → option RState)
    (safeGraph : loc) (currentNode : string) (k : nat) (st : RState)
    : option RState :=
  match k with
  | 0 => Some st
  | S i =>
      let neighbors := neighbors_of (heap (rd st)) safeGraph currentNode in
      let neighbor := Js.show (neighbors !! i) in
      if Js.set_has (recursionStack (rd st)) neighbor then
        match splice_at (heap (rd st)) safeGraph currentNode i with
        | None => None
        | Some h' =>
            let d := rd st in
            dfs_loop rec safeGraph currentNode i
              (mkR (mkD h' (visited d) (recursionStack d) (pathStack d))
                   (Js.push (removedLog st) (mkEdge currentNode neighbor)))
        end
      else if Js.set_has (visited (rd st)) neighbor then
        dfs_loop rec safeGraph currentNode i st
      else
        match rec st neighbor with
        | None => None
        | Some st' => dfs_loop rec safeGraph currentNode i st'
        end
  end.

Fixpoint dfs (safeGraph : loc) (fuel : nat) (st : RState) (currentNode : string)
    : option RState :=
  match fuel with
  | 0 => None
  | S fuel' =>
      let st1 := mkR (enter (rd st) currentNode) (removedLog st) in
      let neighbors := neighbors_of (heap (rd st1)) safeGraph currentNode in
      match dfs_loop (dfs safeGraph fuel') safeGraph currentNode
                    (length neighbors) st1 with
      | None => None
      | Some st2 => Some (mkR (leave (rd st2) currentNode) (removedLog st2))
      end
  end.

End RemoveCycles.

Record ElimResult := mkElim {
  safeGraph : loc;
  removedEdges : list Edge
}.

Definition removeCycles (h : Heap) (graphData : loc) (startNode : string)
    : option (Heap * ElimResult) :=
  let '(h1, safeGraph) := json_parse (json_stringify h graphData) h in
  let st0 := mkR (mkD h1 [] [] []) [] in
  match graph_at h1 safeGraph !! startNode with
  | Some _ =>
      match RemoveCycles.dfs safeGraph (fuel_for (graph_at h1 safeGraph)) st0 startNode with
      | None => None
      | Some st => Some (heap (rd st), mkElim safeGraph (removedLog st))
      end
  | None => Some (h1, mkElim safeGraph [])
  end.

(** ** Test graphs of the specification, allocated in an empty heap *)

Definition empty_heap : Heap := mkHeap ∅ ∅.

Definition scenario1 : gmap string (list string) :=
  list_to_map [("1", ["2"; "7"]); ("2", ["3"; "4"]); ("3", ["2"; "1"])].

Definition scenario2 : gmap string (list string) :=
  list_to_map [("1", ["1"; "2"]); ("2", ["3"]); ("3", [])].

Definition scenario3 : gmap string (list string) :=
  list_to_map [("1", ["2"; "3"]); ("2", ["4"]); ("3", ["4"]); ("4", [])].

Definition scenario4 : gmap string (list string) :=
  list_to_map [("1", ["2"]); ("2", ["3"]); ("3", ["4"]); ("4", ["1"])].

Local Close Scope string_scope.

(** ** Graph notions used by the statements *)

Definition edge (G : gmap string (list string)) (u v : string) : Prop :=
  ∃ l, G !! u = Some l ∧ v ∈ l.

(** Some cycle can be reached from [s]. *)
Definition cycle_reachable (G : gmap string (list string)) (s : string) : Prop :=
  ∃ v, rtc (edge G) s v ∧ tc (edge G) v v.

(** Every consecutive pair of [l] is an edge. *)
Definition walk (G : gmap string (list string)) (l : list string) : Prop :=
  ∀ i u v, l !! i = Some u → l !! S i = Some v → edge G u v.

Definition closed_walk (G : gmap string (list string)) (l : list string) : Prop :=
  walk G l ∧ (2 ≤ length l)%nat ∧ head l = last l.

(** The order in which nodes were marked visited is a reverse
    topological order: every successor of a visited node was visited
    before it. *)
Definition topo (G : gmap string (list string)) (vis : list string) : Prop :=
  ∀ i u v, vis !! i = Some u → edge G u v → ∃ j, j < i ∧ vis !! j = Some v.

(** ** The traversal invariant *)

Section PathInvariant.

Variables (G : gmap string (list string)) (startNode : string).

(** What holds of the traversal state between any two statements that
    touch it in pairs ([add]/[push], [delete]/[pop]/[add]). *)
Record PInv (st : DState) : Prop := mkPInv {
  pinv_stack : recursionStack st = pathStack st;
  pinv_nodup : NoDup (pathStack st);
  pinv_vis_nodup : NoDup (visited st);
  pinv_disjoint : ∀ x, x ∈ visited st → x ∉ pathStack st;
  pinv_walk : walk G (pathStack st);
  pinv_reach : ∀ x, x ∈ pathStack st → rtc (edge G) startNode x;
  pinv_nodes : ∀ x, x ∈ pathStack st → x ∈ node_list G
}.

(** [dfs] is called on the start node, or on a successor of the node
    on top of the path. *)
Definition entry_ok (st : DState) (n : string) : Prop :=
  rtc (edge G) startNode n ∧ n ∈ node_list G ∧
  ∀ u, last (pathStack st) = Some u → edge G u n.

(** The fuel covers the frames the path can still grow by. *)
Definition enough (fuel : nat) (st : DState) : Prop :=
  length (node_list G) - length (pathStack st) < fuel.

(** Every successor of a visited node is visited or still on the
    path. *)
Definition closed_up_to (st : DState) : Prop :=
  ∀ u v, u ∈ visited st → edge G u v → v ∈ visited st ∨ v ∈ pathStack st.

End PathInvariant.

Arguments pinv_stack {_ _ _} _.
Arguments pinv_nodup {_ _ _} _.
Arguments pinv_vis_nodup {_ _ _} _.
Arguments pinv_disjoint {_ _ _} _.
Arguments pinv_walk {_ _ _} _.
Arguments pinv_reach {_ _ _} _.
Arguments pinv_nodes {_ _ _} _.

(** ** The detectors: invariant and contracts of [dfs] *)

Section DetectorInvariant.

Variables (h : Heap) (graphData : loc) (startNode : string).

(** The detectors leave the heap alone. *)
Record Inv (st : DState) : Prop := mkInv {
  inv_heap : heap st = h;
  inv_path : PInv (graph_at h graphData) startNode st
}.

(** What [dfs] guarantees when it reports the culprit [c]. *)
Definition found_post (st st' : DState) (c : string) : Prop :=
  pathStack st `prefix_of` pathStack st' ∧ c ∈ pathStack st' ∧
  ∃ u, last (pathStack st') = Some u ∧ edge (graph_at h graphData) u c.

Definition dfs_post (st : DState) (n : string) (st' : DState) (r : DfsResult)
    : Prop :=
  Inv st' ∧ visited st `prefix_of` visited st' ∧
  topo (graph_at h graphData) (visited st') ∧
  match r with
  | NotFound => pathStack st' = pathStack st ∧ n ∈ visited st'
  | Found c => found_post st st' c
  end.

Definition loop_post (st : DState) (ns : list string) (st' : DState)
    (r : DfsResult) : Prop :=
  Inv st' ∧ visited st `prefix_of` visited st' ∧
  topo (graph_at h graphData) (visited st') ∧
  match r with
  | NotFound => pathStack st' = pathStack st ∧ ∀ v, v ∈ ns → v ∈ visited st'
  | Found c => found_post st st' c
  end.

Definition dfs_ok (fuel : nat)
    (rec : DState → string → option (DState * DfsResult)) : Prop :=
  ∀ st n, Inv st → topo (graph_at h graphData) (visited st) →
    entry_ok (graph_at h graphData) startNode st n →
    enough (graph_at h graphData) fuel st →
    ∃ st' r, rec st n = Some (st', r) ∧ dfs_post st n st' r.

End DetectorInvariant.

Arguments inv_heap {_ _ _ _} _.
Arguments inv_path {_ _ _ _} _.

(** ** Properties of traces *)

(** The snapshots of one step record: no node is both visited and on
    the path, and the recursion stack holds the nodes of the path. *)
Definition step_ok (r : Step) : Prop :=
  (∀ x, x ∈ s_visited r → x ∉ s_recursionStack r) ∧
  (∀ x, x ∈ s_recursionStack r ↔ x ∈ s_pathStack r).

(** Every record sees at least the visited nodes of the records
    emitted before it. *)
Definition visited_grows (log : list Step) : Prop :=
  ∀ i j ri rj, i ≤ j → log !! i = Some ri → log !! j = Some rj →
    s_visited ri ⊆ s_visited rj.

(** The back-edges that the SKIP_CYCLE records of a trace carry. *)
Definition skip_edge_of (r : Step) : option CycleEdge :=
  match extra r with SkipExtra e => Some e | _ => None end.

Definition skip_edges (log : list Step) : list CycleEdge :=
  omap skip_edge_of log.

Definition is_cycle_found (r : Step) : bool :=
  match action r with CYCLE_FOUND => true | _ => false end.

(** A SKIP_CYCLE record carries a back-edge: an edge of the graph from
    the node on top of the path to a node of the path. *)
Definition back_edge_record (G : gmap string (list string)) (r : Step) : Prop :=
  match extra r with
  | SkipExtra e =>
      ∃ u, ce_source e = Some u ∧ last (s_pathStack r) = Some u ∧
           ce_target e ∈ s_pathStack r ∧ edge G u (ce_target e)
  | _ => True
  end.

Section TraceInvariant.

Variables (h : Heap) (graphData : loc) (startNode : string).

Record TInv (ts : TState) : Prop := mkTInv {
  tinv_state : Inv h graphData startNode (dstate ts);
  tinv_steps : Forall step_ok (stepsLog ts);
  tinv_grows : visited_grows (stepsLog ts);
  tinv_bound : Forall (λ r, s_visited r ⊆ visited (dstate ts)) (stepsLog ts)
}.

Definition stop_post (ts : TState) (ts' : TState) (r : StopAtFirst.StepResult)
    : Prop :=
  TInv ts' ∧ visited (dstate ts) ⊆ visited (dstate ts') ∧
  (r = StopAtFirst.SNotFound → pathStack (dstate ts') = pathStack (dstate ts)).

Definition stop_ok (fuel : nat)
    (rec : TState → string → option (TState * StopAtFirst.StepResult)) : Prop :=
  ∀ ts n, TInv ts → entry_ok (graph_at h graphData) startNode (dstate ts) n →
    enough (graph_at h graphData) fuel (dstate ts) →
    ∃ ts' r, rec ts n = Some (ts', r) ∧ stop_post ts ts' r.

End TraceInvariant.

Arguments tinv_state {_ _ _ _} _.
Arguments tinv_steps {_ _ _ _} _.
Arguments tinv_grows {_ _ _ _} _.
Arguments tinv_bound {_ _ _ _} _.

(** Forgetting the trace. *)
Definition erase (r : StopAtFirst.StepResult) : DfsResult :=
  match r with
  | StopAtFirst.SNotFound => NotFound
  | StopAtFirst.SFound c _ => Found c
  end.

#[global] Instance Action_eq_dec : EqDecision Action.
Proof. solve_decision. Defined.

Section SkipInvariant.

Variables (h : Heap) (graphData : loc) (startNode : string).

Record KInv (ts : TState) : Prop := mkKInv {
  kinv_trace : TInv h graphData startNode ts;
  kinv_closed : closed_up_to (graph_at h graphData) (dstate ts);
  kinv_skipped : skippedLog ts = skip_edges (stepsLog ts);
  kinv_count :
    length (filter (λ r, action r = CYCLE_FOUND) (stepsLog ts))
    = length (skippedLog ts);
  kinv_back : Forall (back_edge_record (graph_at h graphData)) (stepsLog ts)
}.

Definition skip_post (ts : TState) (n : string) (ts' : TState) : Prop :=
  KInv ts' ∧ visited (dstate ts) ⊆ visited (dstate ts') ∧
  pathStack (dstate ts') = pathStack (dstate ts) ∧
  (n ∈ visited (dstate ts') ∨ n ∈ pathStack (dstate ts)).

Definition skip_loop_post (ts : TState) (ns : list string) (ts' : TState)
    : Prop :=
  KInv ts' ∧ visited (dstate ts) ⊆ visited (dstate ts') ∧
  pathStack (dstate ts') = pathStack (dstate ts) ∧
  ∀ v, v ∈ ns → v ∈ visited (dstate ts') ∨ v ∈ pathStack (dstate ts).

Definition skip_ok (fuel : nat)
    (rec : TState → string → option (TState * SkipAndContinue.StepResult))
    : Prop :=
  ∀ ts n, KInv ts → entry_ok (graph_at h graphData) startNode (dstate ts) n →
    enough (graph_at h graphData) fuel (dstate ts) →
    ∃ ts' r, rec ts n = Some (ts', r) ∧ skip_post ts n ts'.

End SkipInvariant.

Arguments kinv_trace {_ _ _ _} _.
Arguments kinv_closed {_ _ _ _} _.
Arguments kinv_skipped {_ _ _ _} _.
Arguments kinv_count {_ _ _ _} _.
Arguments kinv_back {_ _ _ _} _.

(** The record that [runDetectionWithSteps] emits first. *)
Definition start_record (startNode : string) : Step :=
  mkStep START startNode
    ("> init dfs --start=" ++ Js.dquote ++ startNode ++ Js.dquote)%string
    ("初始化深度優先搜尋，起點=" ++ Js.dquote ++ startNode ++ Js.dquote)%string
    [] [] [] NoExtra.

(** The initial state of the instrumented detectors, after START. *)
Definition trace_init (h : Heap) (startNode : string) : TState :=
  Emit.start (mkT (mkD h [] [] []) [] []) startNode.

(** The instrumented [dfs] does what the plain one does, and records it. *)
Definition refines
    (rec : DState → string → option (DState * DfsResult))
    (rec' : TState → string → option (TState * StopAtFirst.StepResult)) : Prop :=
  ∀ ts n,
    match rec (dstate ts) n with
    | None => rec' ts n = None
    | Some (st', r) =>
        ∃ ts' r', rec' ts n = Some (ts', r') ∧ dstate ts' = st' ∧ erase r' = r
    end.

(** ** Heaps: ownership and preservation *)

(** The object [o] of [h] references arrays of [h], one per property. *)
Definition own_arrays (h : Heap) (o : loc) : Prop :=
  ∃ tbl, objs h !! o = Some tbl ∧
    (∀ k l, tbl !! k = Some l → is_Some (arrs h !! l)) ∧
    (∀ k1 k2 l, tbl !! k1 = Some l → tbl !! k2 = Some l → k1 = k2).

(** A graph as a caller holds it: an object whose properties reference
    arrays of the heap (which they may share). *)
Definition valid_graph (h : Heap) (o : loc) : Prop :=
  ∃ tbl, objs h !! o = Some tbl ∧ ∀ k l, tbl !! k = Some l → is_Some (arrs h !! l).

(** Every object and every array of [h0] is the same in [h]. *)
Definition preserves (h0 h : Heap) : Prop :=
  (∀ o, is_Some (objs h0 !! o) → objs h !! o = objs h0 !! o) ∧
  (∀ l, is_Some (arrs h0 !! l) → arrs h !! l = arrs h0 !! l).

(** The object [o] of [h] and its arrays do not exist in [h0]. *)
Definition private (h0 h : Heap) (o : loc) : Prop :=
  objs h0 !! o = None ∧
  ∃ tbl, objs h !! o = Some tbl ∧ ∀ k l, tbl !! k = Some l → arrs h0 !! l = None.

(** ** [removeCycles]: invariant and contracts *)

#[global] Instance Edge_eq_dec : EqDecision Edge.
Proof. solve_decision. Defined.

(** The successor list [a] of [u] without the edges of [removed]. *)
Definition kept (removed : list Edge) (u : string) (a : list string)
    : list string :=
  filter (λ v, mkEdge u v ∉ removed) a.

(** The graph behind [safeGraph] in the current heap. *)
Definition view (sg : loc) (st : RState) : gmap string (list string) :=
  graph_at (heap (rd st)) sg.

Section ElimInvariant.

Variables (h0 : Heap) (G0 : gmap string (list string)) (sg : loc)
          (startNode : string).

(** [h0] is the heap of the caller, [G0] the graph passed in. *)
Record RInv (st : RState) : Prop := mkRInv {
  rinv_path : PInv G0 startNode (rd st);
  rinv_closed : closed_up_to G0 (rd st);
  rinv_own : own_arrays (heap (rd st)) sg;
  rinv_pres : preserves h0 (heap (rd st));
  rinv_priv : private h0 (heap (rd st)) sg;
  rinv_topo : topo (view sg st) (visited (rd st));
  rinv_done : ∀ u, u ∈ visited (rd st) →
    view sg st !! u = kept (removedLog st) u <$> G0 !! u;
  rinv_fresh : ∀ u, u ∉ visited (rd st) → u ∉ pathStack (rd st) →
    view sg st !! u = G0 !! u;
  rinv_sources : ∀ e, e ∈ removedLog st →
    source e ∈ visited (rd st) ∨ source e ∈ pathStack (rd st);
  rinv_back : ∀ e, e ∈ removedLog st →
    edge G0 (source e) (target e) ∧ rtc (edge G0) startNode (source e) ∧
    rtc (edge G0) (target e) (source e)
}.

(** The loop of [dfs] over the successors [a0] of [cur], with the
    entries from index [k] on already examined; [ps] is the path. *)
Record LInv (cur : string) (a0 ps : list string) (k : nat) (st : RState)
    : Prop := mkLInv {
  linv_inv : RInv st;
  linv_path : pathStack (rd st) = ps;
  linv_list :
    view sg st !! cur = Some (take k a0 ++ filter (λ v, v ∉ ps) (drop k a0));
  linv_seen : ∀ v, v ∈ drop k a0 → v ∈ ps ∨ v ∈ visited (rd st);
  linv_cut : ∀ v, v ∈ drop k a0 → v ∈ ps → mkEdge cur v ∈ removedLog st;
  linv_only : ∀ e, e ∈ removedLog st → source e = cur → target e ∈ ps
}.

(** What a loop, or a call, changes. *)
Record rc_frame (ps : list string) (cur : option string) (st st' : RState)
    : Prop := mkFrame {
  fr_visited : visited (rd st) `prefix_of` visited (rd st');
  fr_removed : removedLog st `prefix_of` removedLog st';
  fr_view : ∀ u, u ∈ ps → Some u ≠ cur → view sg st' !! u = view sg st !! u;
  fr_new : ∀ e, e ∈ removedLog st' → e ∉ removedLog st →
    Some (source e) = cur ∨ source e ∉ ps
}.

Definition rc_post (st : RState) (n : string) (st' : RState) : Prop :=
  RInv st' ∧ pathStack (rd st') = pathStack (rd st) ∧
  n ∈ visited (rd st') ∧ rc_frame (pathStack (rd st)) None st st'.

Definition rc_ok (fuel : nat) (rec : RState → string → option RState) : Prop :=
  ∀ st n, RInv st → entry_ok G0 startNode (rd st) n →
    n ∉ pathStack (rd st) → n ∉ visited (rd st) → enough G0 fuel (rd st) →
    ∃ st', rec st n = Some st' ∧ rc_post st n st'.

(** The state in which the loop over the successors of [n] ends. *)
Record rc_loop_post (n : string) (ps : list string) (st st' : RState)
    : Prop := mkLoopPost {
  lp_inv : RInv st';
  lp_path : pathStack (rd st') = ps ++ [n];
  lp_list : view sg st' !! n = kept (removedLog st') n <$> G0 !! n;
  lp_succ : ∀ v, edge (view sg st') n v → v ∈ visited (rd st');
  lp_orig : ∀ v, edge G0 n v → v ∈ visited (rd st') ∨ v ∈ ps ++ [n];
  lp_frame : rc_frame (ps ++ [n]) (Some n) st st'
}.

End ElimInvariant.

Arguments rinv_path {_ _ _ _ _} _.
Arguments rinv_closed {_ _ _ _ _} _.
Arguments rinv_own {_ _ _ _ _} _.
Arguments rinv_pres {_ _ _ _ _} _.
Arguments rinv_priv {_ _ _ _ _} _.
Arguments rinv_topo {_ _ _ _ _} _.
Arguments rinv_done {_ _ _ _ _} _.
Arguments rinv_fresh {_ _ _ _ _} _.
Arguments rinv_sources {_ _ _ _ _} _.
Arguments rinv_back {_ _ _ _ _} _.

(** What a run of [removeCycles] on the graph [g] of heap [h] from [s]
    establishes about the heap [h'] and the result [res] it returns. *)
Record elim_ok (h : Heap) (g : loc) (s : string) (h' : Heap) (res : ElimResult)
    : Prop := mkElimOk {
  eo_acyclic : ∀ v, rtc (edge (graph_at h g)) s v →
    ¬ tc (edge (graph_at h' (safeGraph res))) v v;
  eo_kept : ∀ u,
    graph_at h' (safeGraph res) !! u
    = kept (removedEdges res) u <$> graph_at h g !! u;
  eo_back : ∀ e, e ∈ removedEdges res →
    edge (graph_at h g) (source e) (target e) ∧
    rtc (edge (graph_at h g)) s (source e) ∧
    rtc (edge (graph_at h g)) (target e) (source e);
  eo_pres : preserves h h';
  eo_priv : private h h' (safeGraph res);
  eo_own : own_arrays h' (safeGraph res)
}.

Definition scenario1_heap : Heap := (json_parse scenario1 empty_heap).1.
Definition scenario1_ref : loc := (json_parse scenario1 empty_heap).2.

(** [detect] on a graph literal: the result object, the heap left aside. *)
Definition detect_literal (G : gmap string (list string)) (startNode : string)
    : option Result :=
  let '(h, g) := json_parse G empty_heap in
  snd <$> runDetection h g startNode.

(** ** The application around the hook (App.jsx and its second version) *)

(** [nextStep], [prevStep], [goToStep]: the value of [currentStepIndex]
    after the call ([cond && setCurrentStepIndex(...)] in one version,
    [if (cond) setCurrentStepIndex(...)] in the other). *)
Definition nextStep (currentStepIndex : Z) (steps : list Step) : Z :=
  if (currentStepIndex <? Z.of_nat (length steps) - 1)%Z
  then (currentStepIndex + 1)%Z else currentStepIndex.

Definition prevStep (currentStepIndex : Z) : Z :=
  if (0 <? currentStepIndex)%Z then (currentStepIndex - 1)%Z else currentStepIndex.

Definition goToStep (currentStepIndex : Z) (steps : list Step) (index : Z) : Z :=
  if (0 <=? index)%Z && (index <? Z.of_nat (length steps))%Z
  then index else currentStepIndex.

(** What the user does with the player, and a session of it. *)
Inductive NavOp := NavNext | NavPrev | NavGoTo (index : Z).

Definition navigate (steps : list Step) (currentStepIndex : Z) (op : NavOp) : Z :=
  match op with
  | NavNext => nextStep currentStepIndex steps
  | NavPrev => prevStep currentStepIndex
  | NavGoTo index => goToStep currentStepIndex steps index
  end.

(** [previewFix]: the test that marks a drawn edge TO DELETE,
    [removedEdges.some(re => String(re.source) === String(edge.source)
                          && String(re.target) === String(edge.target))]. *)
Definition isRemoved (removedEdges : list Edge) (edge : Edge) : bool :=
  existsb (λ re, bool_decide (source re = source edge)
                 && bool_decide (target re = target edge)) removedEdges.

(** [highlightGraph]: the loop that decides whether a drawn edge lies on
    [loopPath], [for (let i = 0; i < loopPath.length - 1; i++)]; [count]
    is the number of iterations left.  The replay effect runs the loop of
    the second version on its [cyclePath]. *)
Module Highlight.

(** Second version of App.jsx: [if (...) { isInLoop = true; break; }] *)
Fixpoint scan (loopPath : list string) (edge : Edge) (i count : nat) : bool :=
  match count with
  | 0 => false
  | S count' =>
      if bool_decide (loopPath !! i = Some (source edge))
         && bool_decide (loopPath !! (i + 1) = Some (target edge))
      then true
      else scan loopPath edge (S i) count'
  end.

Definition isInLoop (loopPath : list string) (edge : Edge) : bool :=
  scan loopPath edge 0 (length loopPath - 1).

(** src/src/App.jsx: [if (...) isInLoop = true; break;], where the
    [break] ends the loop after its first iteration. *)
Definition scan_first (loopPath : list string) (edge : Edge) (i count : nat)
    : bool :=
  match count with
  | 0 => false
  | S _ =>
      if bool_decide (loopPath !! i = Some (source edge))
         && bool_decide (loopPath !! (i + 1) = Some (target edge))
      then true
      else false
  end.

Definition isInLoop_first (loopPath : list string) (edge : Edge) : bool :=
  scan_first loopPath edge 0 (length loopPath - 1).

End Highlight.

(** The replay effect on a CYCLE_FOUND record:
    [[...step.pathStack.slice(step.pathStack.indexOf(cycleNode)), cycleNode]] *)
Definition cyclePath (pathStack : list string) (cycleNode : string) : list string :=
  Js.slice pathStack (Js.indexOf pathStack cycleNode) ++ [cycleNode].

(** [fixCycle] hands the repaired graph on as JSON text and analyses
    what it parses back:
    [runDetection(JSON.parse(JSON.stringify(safeGraph, null, 2)), targetPatent)]. *)
Definition reanalyse (h : Heap) (safeGraph : loc) (targetPatent : string)
    : option (Heap * Result) :=
  let '(h2, adjList) := json_parse (json_stringify h safeGraph) h in
  runDetection h2 adjList targetPatent.

(** What the instrumented [dfs] adds to the trace: it only appends,
    and it reports a culprit right after the CYCLE_FOUND record, with
    the edge from the top of the path to the culprit. *)
Definition stop_trace_post (ts ts' : TState) (r : StopAtFirst.StepResult) : Prop :=
  stepsLog ts `prefix_of` stepsLog ts' ∧
  match r with
  | StopAtFirst.SNotFound => True
  | StopAtFirst.SFound c e =>
      e = mkCycleEdge (last (pathStack (dstate ts'))) c ∧
      ∃ fin, last (stepsLog ts') = Some fin ∧ action fin = CYCLE_FOUND ∧
             node fin = c ∧ extra fin = CycleExtra c ∧
             s_pathStack fin = pathStack (dstate ts')
  end.

(** A recorded back-edge closes a cycle that the start node reaches. *)
Definition closes_cycle (G : gmap string (list string)) (s : string)
    (e : CycleEdge) : Prop :=
  ∃ u, ce_source e = Some u ∧ edge G u (ce_target e) ∧
       rtc (edge G) s u ∧ rtc (edge G) (ce_target e) u.

(** The skip-and-continue traversal as a detector: what it has skipped
    closes cycles, and as long as it has skipped nothing the visited
    nodes are in reverse topological order. *)
Definition skip_detect (G : gmap string (list string)) (s : string)
    (ts : TState) : Prop :=
  Forall (closes_cycle G s) (skippedLog ts) ∧
  (skippedLog ts = [] → topo G (visited (dstate ts))).

Definition skip_detect_post (G : gmap string (list string)) (s : string)
    (ts : TState) (seen : list string) (ts' : TState) : Prop :=
  skip_detect G s ts' ∧
  (∀ v, v ∈ seen → v ∈ visited (dstate ts') ∨ skippedLog ts' ≠ []) ∧
  (skippedLog ts ≠ [] → skippedLog ts' ≠ []).

(** [removeCycles] keeps the nodes it has met within reach: the path
    is a walk of the graph as it stands, starting at the start node, and
    every visited node can still be reached from the start node. *)
Definition reach_inv (sg : loc) (s : string) (st : RState) : Prop :=
  walk (view sg st) (pathStack (rd st)) ∧
  (∀ x, head (pathStack (rd st)) = Some x → x = s) ∧
  (∀ x, x ∈ visited (rd st) → rtc (edge (view sg st)) s x).

(** [dfs] is entered along an edge of the graph as it stands. *)
Definition entry_view (sg : loc) (s : string) (st : RState) (n : string) : Prop :=
  (∀ u, last (pathStack (rd st)) = Some u → edge (view sg st) u n) ∧
  (pathStack (rd st) = [] → n = s).

(** The replay effect on a step record.  [step.cycleNode] is absent
    from the records that are not CYCLE_FOUND; [indexOf(undefined)] is
    [-1] and [node.id === undefined] is false. *)
Definition s_cycleNode (step : Step) : option string :=
  match extra step with CycleExtra c => Some c | _ => None end.

(** [step.pathStack.indexOf(node.id) >= cycleStartIndex
     || node.id === step.cycleNode] *)
Definition isInCycle (step : Step) (id : string) : bool :=
  let cycleStartIndex :=
    match s_cycleNode step with
    | Some c => Js.indexOf (s_pathStack step) c
    | None => (-1)%Z
    end in
  (cycleStartIndex <=? Js.indexOf (s_pathStack step) id)%Z
  || bool_decide (s_cycleNode step = Some id).

(** The node [id] gets the style of a node of the cycle:
    [step.action === CYCLE_FOUND && step.pathStack.includes(node.id)],
    then [isInCycle]. *)
Definition paints_cycle (step : Step) (id : string) : bool :=
  bool_decide (action step = CYCLE_FOUND)
  && bool_decide (id ∈ s_pathStack step)
  && isInCycle step id.

(** What a step record holds of the path: a walk without repetition,
    and on a CYCLE_FOUND record the culprit is on it and closes it. *)
Definition cycle_record (G : gmap string (list string)) (r : Step) : Prop :=
  NoDup (s_pathStack r) ∧ walk G (s_pathStack r) ∧
  (action r = CYCLE_FOUND →
   ∃ c u, extra r = CycleExtra c ∧ c ∈ s_pathStack r ∧
          last (s_pathStack r) = Some u ∧ edge G u c).

(** * Proofs *)

(** ** Sets and arrays *)

Lemma set_has_true s x : Js.set_has s x = true ↔ x ∈ s.
Proof. unfold Js.set_has. apply bool_decide_eq_true. Qed.

Lemma set_has_false s x : Js.set_has s x = false ↔ x ∉ s.
Proof. unfold Js.set_has. apply bool_decide_eq_false. Qed.

Lemma set_add_fresh s x : x ∉ s → Js.set_add s x = s ++ [x].
Proof.
  intros Hx. unfold Js.set_add.
  by rewrite (proj2 (set_has_false s x) Hx).
Qed.

Lemma set_delete_last s x : x ∉ s → Js.set_delete (s ++ [x]) x = s.
Proof.
  intros Hx. unfold Js.set_delete.
  rewrite filter_app. simpl.
  rewrite (filter_cons_False (λ y, y ≠ x)) by (intros H; by apply H).
  rewrite filter_nil, app_nil_r.
  induction s as [|y s IH]; [done|].
  rewrite filter_cons_True by (intros ->; apply Hx; left).
  f_equal. apply IH. intros H. apply Hx. by right.
Qed.

Lemma pop_push {A} (l : list A) x : Js.pop (Js.push l x) = l.
Proof.
  unfold Js.pop, Js.push. rewrite length_app. simpl.
  replace (length l + 1 - 1) with (length l) by lia.
  by rewrite take_app_length.
Qed.

Lemma indexOf_split l x :
  x ∈ l → ∃ l1 l2, l = l1 ++ x :: l2 ∧ Js.indexOf l x = Z.of_nat (length l1).
Proof.
  induction l as [|y l IH]; intros Hx; [by apply elem_of_nil in Hx|].
  simpl. destruct (decide (y = x)) as [->|Hne].
  - by exists [], l.
  - apply elem_of_cons in Hx as [->|Hx]; [done|].
    destruct (IH Hx) as (l1 & l2 & -> & Hi).
    exists (y :: l1), l2. split; [done|].
    rewrite Hi. destruct (Z.ltb_spec (Z.of_nat (length l1)) 0); simpl length; lia.
Qed.

Lemma slice_nat {A} (l : list A) n : Js.slice l (Z.of_nat n) = drop n l.
Proof.
  unfold Js.slice. destruct (Z.ltb_spec (Z.of_nat n) 0); [lia|].
  by rewrite Nat2Z.id.
Qed.

(** ** Walks *)

Lemma walk_nil G : walk G [].
Proof. intros i u v H. by rewrite lookup_nil in H. Qed.

Lemma walk_snoc G l x :
  walk G l → (∀ u, last l = Some u → edge G u x) → walk G (l ++ [x]).
Proof.
  intros Hw Hl i u v Hu Hv.
  destruct (decide (S i < length l)) as [Hlt|Hge].
  - rewrite lookup_app_l in Hu by lia. rewrite lookup_app_l in Hv by lia. eauto.
  - assert (S i = length l) as Hi.
    { apply lookup_lt_Some in Hv. rewrite length_app in Hv. simpl in Hv. lia. }
    rewrite lookup_app_l in Hu by lia.
    rewrite Hi, lookup_app_r, Nat.sub_diag in Hv by lia.
    injection Hv as <-. apply Hl.
    rewrite last_lookup. rewrite <- Hi. simpl. done.
Qed.

Lemma walk_app_l G l1 l2 : walk G (l1 ++ l2) → walk G l1.
Proof.
  intros Hw i u v Hu Hv. apply (Hw i); by apply lookup_app_l_Some.
Qed.

Lemma walk_app_r G l1 l2 : walk G (l1 ++ l2) → walk G l2.
Proof.
  intros Hw i u v Hu Hv. apply (Hw (length l1 + i)).
  - by rewrite lookup_app_r, Nat.add_comm, Nat.add_sub by lia.
  - replace (S (length l1 + i)) with (length l1 + S i) by lia.
    by rewrite lookup_app_r, Nat.add_comm, Nat.add_sub by lia.
Qed.

Lemma walk_prefix G l1 l2 : l1 `prefix_of` l2 → walk G l2 → walk G l1.
Proof. intros [k ->]. apply walk_app_l. Qed.

(** A walk leads from its first to its last element. *)
Lemma walk_rtc G l x y :
  walk G (x :: l) → last (x :: l) = Some y → rtc (edge G) x y.
Proof.
  revert x. induction l as [|z l IH]; intros x Hw Hl.
  - simpl in Hl. injection Hl as <-. done.
  - eapply rtc_l.
    + apply (Hw 0); done.
    + apply IH; [|by rewrite last_cons_cons in Hl].
      apply (walk_app_r G [x]). done.
Qed.

(** ** Nodes of a graph *)

Lemma key_in_node_list (G : gmap string (list string)) k :
  is_Some (G !! k) → k ∈ node_list G.
Proof.
  intros [l Hl]. unfold node_list. apply list_elem_of_In, in_concat.
  exists (k :: l). split; [|by left].
  apply list_elem_of_In, list_elem_of_fmap. exists (k, l). split; [done|].
  by apply elem_of_map_to_list.
Qed.

Lemma succ_in_node_list G u v : edge G u v → v ∈ node_list G.
Proof.
  intros (l & Hl & Hv). unfold node_list. apply list_elem_of_In, in_concat.
  exists (u :: l). split; [|right; by apply list_elem_of_In].
  apply list_elem_of_In, list_elem_of_fmap. exists (u, l). split; [done|].
  by apply elem_of_map_to_list.
Qed.

Lemma stack_bound (G : gmap string (list string)) (l : list string) :
  NoDup l → (∀ x, x ∈ l → x ∈ node_list G) → length l ≤ length (node_list G).
Proof.
  intros Hnd Hsub. apply submseteq_length. by apply NoDup_submseteq.
Qed.

(** ** Reverse topological orders *)

Lemma topo_closed G vis u v :
  topo G vis → u ∈ vis → rtc (edge G) u v → v ∈ vis.
Proof.
  intros Ht Hu Hr. induction Hr as [|x y z Hxy _ IH]; [done|].
  apply IH. apply list_elem_of_lookup in Hu as [i Hi].
  destruct (Ht i x y Hi Hxy) as (j & _ & Hj).
  apply list_elem_of_lookup. eauto.
Qed.

Lemma topo_tc_decreases G vis u v i :
  topo G vis → tc (edge G) u v → vis !! i = Some u →
  ∃ j, j < i ∧ vis !! j = Some v.
Proof.
  intros Ht Htc. revert i. induction Htc as [x y Hxy|x y z Hxy _ IH]; intros i Hi.
  - eauto.
  - destruct (Ht i x y Hi Hxy) as (j & Hlt & Hj).
    destruct (IH j Hj) as (k & Hk & Hz). exists k. split; [lia|done].
Qed.

Lemma topo_acyclic G vis v : topo G vis → NoDup vis → v ∈ vis → ¬ tc (edge G) v v.
Proof.
  intros Ht Hnd Hv Hc. apply list_elem_of_lookup in Hv as [i Hi].
  destruct (topo_tc_decreases G vis v v i Ht Hc Hi) as (j & Hlt & Hj).
  assert (i = j) by (eapply NoDup_lookup; eauto). lia.
Qed.

Lemma topo_snoc G vis x :
  topo G vis → (∀ v, edge G x v → v ∈ vis) → topo G (vis ++ [x]).
Proof.
  intros Ht Hx i u v Hu Huv.
  destruct (decide (i < length vis)) as [Hlt|Hge].
  - rewrite lookup_app_l in Hu by done.
    destruct (Ht i u v Hu Huv) as (j & Hj & Hv).
    exists j. split; [done|]. by apply lookup_app_l_Some.
  - assert (i = length vis) as ->.
    { apply lookup_lt_Some in Hu. rewrite length_app in Hu. simpl in Hu. lia. }
    rewrite lookup_app_r, Nat.sub_diag in Hu by lia. injection Hu as <-.
    apply Hx in Huv. apply list_elem_of_lookup in Huv as [j Hj].
    exists j. split; [by eapply lookup_lt_Some|]. by apply lookup_app_l_Some.
Qed.

(** ** The traversal invariant is maintained *)

Section Path.

Variables (G : gmap string (list string)) (startNode : string).

Local Abbreviation PInv := (PInv G startNode).
Local Abbreviation entry_ok := (entry_ok G startNode).
Local Abbreviation enough := (enough G).

Lemma PInv_init h : PInv (mkD h [] [] []).
Proof.
  split; simpl; try done; try apply NoDup_nil_2; try apply walk_nil;
    intros x Hx; by apply elem_of_nil in Hx.
Qed.

Lemma PInv_enter st n :
  PInv st → entry_ok st n → n ∉ pathStack st → n ∉ visited st →
  PInv (enter st n) ∧ pathStack (enter st n) = pathStack st ++ [n].
Proof.
  intros [Hs Hnd Hvnd Hdis Hw Hr Hn] (Hrn & Hnn & Hlast) Hnp Hnv.
  split; [|done]. split; simpl; unfold Js.push; try done.
  - rewrite Hs. by rewrite set_add_fresh.
  - apply NoDup_app. split_and!; [done| |apply NoDup_singleton].
    intros x Hx Hx'. apply list_elem_of_singleton in Hx' as ->. done.
  - intros x Hx Hx'. apply elem_of_app in Hx' as [Hx'|Hx'].
    + by apply (Hdis x).
    + apply list_elem_of_singleton in Hx' as ->. done.
  - by apply walk_snoc.
  - intros x Hx. apply elem_of_app in Hx as [Hx|Hx]; [by apply Hr|].
    by apply list_elem_of_singleton in Hx as ->.
  - intros x Hx. apply elem_of_app in Hx as [Hx|Hx]; [by apply Hn|].
    by apply list_elem_of_singleton in Hx as ->.
Qed.

Lemma PInv_leave st ps n :
  PInv st → pathStack st = ps ++ [n] →
  PInv (leave st n) ∧ pathStack (leave st n) = ps ∧
  visited (leave st n) = visited st ++ [n].
Proof.
  intros [Hs Hnd Hvnd Hdis Hw Hr Hn] Hps.
  assert (n ∉ ps) as Hnps.
  { rewrite Hps in Hnd. apply NoDup_app in Hnd as (_ & Hnd & _).
    intros Hin. apply (Hnd n Hin). left. }
  assert (n ∉ visited st) as Hnv.
  { intros Hin. apply (Hdis n Hin). rewrite Hps. apply elem_of_app. right. left. }
  assert (pathStack (leave st n) = ps) as Hps'.
  { simpl. rewrite Hps. apply pop_push. }
  assert (visited (leave st n) = visited st ++ [n]) as Hv'.
  { simpl. by apply set_add_fresh. }
  split; [|done]. split; try rewrite Hps'; try rewrite Hv'; try done.
  - simpl. rewrite Hs, Hps. by apply set_delete_last.
  - rewrite Hps in Hnd. by apply NoDup_app in Hnd as (? & _ & _).
  - apply NoDup_app. split_and!; [done| |apply NoDup_singleton].
    intros x Hx Hx'. apply list_elem_of_singleton in Hx' as ->. done.
  - intros x Hx Hx'. apply elem_of_app in Hx as [Hx|Hx].
    + apply (Hdis x Hx). rewrite Hps. apply elem_of_app. by left.
    + apply list_elem_of_singleton in Hx as ->. done.
  - rewrite Hps in Hw. by apply walk_app_l in Hw.
  - intros x Hx. apply Hr. rewrite Hps. apply elem_of_app. by left.
  - intros x Hx. apply Hn. rewrite Hps. apply elem_of_app. by left.
Qed.

Lemma path_enough_enter fuel st n :
  PInv (enter st n) → pathStack (enter st n) = pathStack st ++ [n] →
  enough (S fuel) st → enough fuel (enter st n).
Proof.
  intros HP Hps. unfold enough. rewrite Hps, length_app. simpl.
  pose proof (stack_bound G _ (pinv_nodup HP) (pinv_nodes HP)) as Hb.
  rewrite Hps, length_app in Hb. simpl in Hb. lia.
Qed.

Lemma path_entry_ok_neighbor st cur n :
  PInv st → last (pathStack st) = Some cur → edge G cur n → entry_ok st n.
Proof.
  intros HP Hlast Hcn. split_and!.
  - eapply rtc_r; [|exact Hcn]. apply (pinv_reach HP).
    by apply last_Some_elem_of.
  - by eapply succ_in_node_list.
  - intros u Hu. rewrite Hlast in Hu. by injection Hu as <-.
Qed.

Lemma closed_enter st n :
  closed_up_to G st → closed_up_to G (enter st n).
Proof.
  intros Hc u v Hu Huv. simpl in *. unfold Js.push.
  destruct (Hc u v Hu Huv) as [Hv|Hv]; [by left|].
  right. apply elem_of_app. by left.
Qed.

Lemma closed_leave st ps n :
  closed_up_to G st → pathStack st = ps ++ [n] →
  pathStack (leave st n) = ps → visited (leave st n) = visited st ++ [n] →
  (∀ v, edge G n v → v ∈ visited st ∨ v ∈ ps ++ [n]) →
  closed_up_to G (leave st n).
Proof.
  intros Hc Hps Hps' Hv' Hn u v Hu Huv. rewrite Hps', Hv' in *.
  assert (v ∈ visited st ∨ v ∈ ps ++ [n]) as [Hv|Hv].
  { apply elem_of_app in Hu as [Hu|Hu].
    - rewrite <- Hps. by eapply Hc.
    - apply list_elem_of_singleton in Hu as ->. by apply Hn. }
  - left. apply elem_of_app. by left.
  - apply elem_of_app in Hv as [Hv|Hv]; [by right|].
    left. apply elem_of_app. by right.
Qed.

Lemma closed_reach st u v :
  closed_up_to G st → pathStack st = [] → u ∈ visited st →
  rtc (edge G) u v → v ∈ visited st.
Proof.
  intros Hc Hps Hu Hr. induction Hr as [|x y z Hxy _ IH]; [done|].
  apply IH. destruct (Hc x y Hu Hxy) as [Hy|Hy]; [done|].
  rewrite Hps in Hy. by apply elem_of_nil in Hy.
Qed.

End Path.

Lemma inv_stack {h g s st} : Inv h g s st → recursionStack st = pathStack st.
Proof. intros HI. apply (pinv_stack (inv_path HI)). Qed.

Lemma inv_vis_nodup {h g s st} : Inv h g s st → NoDup (visited st).
Proof. intros HI. apply (pinv_vis_nodup (inv_path HI)). Qed.

Lemma inv_disjoint {h g s st} :
  Inv h g s st → ∀ x, x ∈ visited st → x ∉ pathStack st.
Proof. intros HI. apply (pinv_disjoint (inv_path HI)). Qed.

Lemma inv_walk {h g s st} : Inv h g s st → walk (graph_at h g) (pathStack st).
Proof. intros HI. apply (pinv_walk (inv_path HI)). Qed.

Lemma inv_reach {h g s st} :
  Inv h g s st → ∀ x, x ∈ pathStack st → rtc (edge (graph_at h g)) s x.
Proof. intros HI. apply (pinv_reach (inv_path HI)). Qed.

Section Detector.

Variables (h : Heap) (graphData : loc) (startNode : string).

Local Abbreviation G := (graph_at h graphData).
Local Abbreviation Inv := (Inv h graphData startNode).
Local Abbreviation entry_ok := (entry_ok (graph_at h graphData) startNode).
Local Abbreviation enough := (enough (graph_at h graphData)).
Local Abbreviation found_post := (found_post h graphData).
Local Abbreviation dfs_post := (dfs_post h graphData startNode).
Local Abbreviation loop_post := (loop_post h graphData startNode).
Local Abbreviation dfs_ok := (dfs_ok h graphData startNode).

Lemma Inv_init : Inv (mkD h [] [] []).
Proof. split; [done|apply PInv_init]. Qed.

Lemma Inv_enter st n :
  Inv st → entry_ok st n → n ∉ pathStack st → n ∉ visited st →
  Inv (enter st n) ∧ pathStack (enter st n) = pathStack st ++ [n].
Proof.
  intros [Hh HP] He Hnp Hnv.
  destruct (PInv_enter _ _ st n HP He Hnp Hnv) as [HP' Hps]. by split.
Qed.

Lemma Inv_leave st ps n :
  Inv st → pathStack st = ps ++ [n] →
  Inv (leave st n) ∧ pathStack (leave st n) = ps ∧
  visited (leave st n) = visited st ++ [n].
Proof.
  intros [Hh HP] Hps.
  destruct (PInv_leave _ _ st ps n HP Hps) as (HP' & Hps' & Hv'). by split.
Qed.

Lemma enough_enter fuel st n :
  Inv (enter st n) → pathStack (enter st n) = pathStack st ++ [n] →
  enough (S fuel) st → enough fuel (enter st n).
Proof. intros HI. apply (path_enough_enter _ startNode), (inv_path HI). Qed.

Lemma entry_ok_neighbor st cur n :
  Inv st → last (pathStack st) = Some cur → edge G cur n → entry_ok st n.
Proof. intros HI. apply (path_entry_ok_neighbor _ startNode), (inv_path HI). Qed.

Lemma neighbors_edge st n v :
  Inv st → v ∈ neighbors_of (heap st) graphData n ↔ edge G n v.
Proof.
  intros HI. unfold neighbors_of, edge. rewrite (inv_heap HI).
  destruct (G !! n) as [l|]; simpl.
  - split; [eauto|]. by intros (l' & [= <-] & ?).
  - split; [by intros ?%elem_of_nil|]. by intros (l' & [=] & ?).
Qed.

(** *** The plain detector *)

Lemma dfs_loop_spec fuel rec cur :
  dfs_ok fuel rec →
  ∀ ns st, Inv st → topo G (visited st) → enough fuel st →
    last (pathStack st) = Some cur → (∀ v, v ∈ ns → edge G cur v) →
    ∃ st' r, dfs_loop rec ns st = Some (st', r) ∧ loop_post st ns st' r.
Proof.
  intros Hrec. induction ns as [|n ns IH]; intros st HI Ht Hf Hlast Hns.
  - exists st, NotFound. split; [done|]. split_and!; try done.
    intros v Hv. by apply elem_of_nil in Hv.
  - assert (edge G cur n) as Hcn by (apply Hns; left).
    assert (entry_ok st n) as He.
    { split_and!.
      + eapply rtc_r; [|exact Hcn]. apply (inv_reach HI).
        by apply last_Some_elem_of.
      + by eapply succ_in_node_list.
      + intros u Hu. rewrite Hlast in Hu. by injection Hu as <-. }
    destruct (Hrec st n HI Ht He Hf) as (st1 & r & Hr & HI1 & Hpre & Ht1 & Hpost).
    simpl. rewrite Hr. destruct r as [|c].
    + destruct Hpost as [Hps Hnv].
      destruct (IH st1) as (st2 & r2 & Hl & HI2 & Hpre2 & Ht2 & Hpost2); try done.
      * unfold enough in *. by rewrite Hps.
      * by rewrite Hps.
      * intros v Hv. apply Hns. by right.
      * exists st2, r2. split; [done|]. split_and!; try done.
        { by etrans. }
        destruct r2 as [|c].
        -- destruct Hpost2 as [Hps2 Hall]. split; [congruence|].
           intros v [->|Hv]%elem_of_cons; [|by apply Hall].
           destruct Hpre2 as [k ->]. apply elem_of_app. by left.
        -- destruct Hpost2 as (Hp & Hc & Hu). split_and!; try done.
           by rewrite <- Hps.
    + exists st1, (Found c). split; [done|]. by split_and!.
Qed.

Lemma dfs_spec fuel : dfs_ok fuel (dfs graphData fuel).
Proof.
  induction fuel as [|fuel IH]; intros st n HI Ht He Hf.
  { unfold enough in Hf. lia. }
  cbn [dfs]. destruct (Js.set_has (recursionStack st) n) eqn:Hrs.
  { apply set_has_true in Hrs. rewrite (inv_stack HI) in Hrs.
    exists st, (Found n). split; [done|]. split_and!; try done.
    unfold found_post. split_and!; try done.
    destruct (last (pathStack st)) as [u|] eqn:Hl.
    - exists u. split; [done|]. by apply (proj2 (proj2 He)).
    - apply last_None in Hl. rewrite Hl in Hrs. by apply elem_of_nil in Hrs. }
  apply set_has_false in Hrs. rewrite (inv_stack HI) in Hrs.
  destruct (Js.set_has (visited st) n) eqn:Hvis.
  { apply set_has_true in Hvis. exists st, NotFound. by split_and!. }
  apply set_has_false in Hvis.
  destruct (Inv_enter st n HI He Hrs Hvis) as [HI1 Hps1].
  pose proof (enough_enter fuel st n HI1 Hps1 Hf) as Hf1.
  destruct (dfs_loop_spec fuel (dfs graphData fuel) n IH
              (neighbors_of (heap (enter st n)) graphData n) (enter st n))
    as (st2 & r & Hl & HI2 & Hpre & Ht2 & Hpost); try done.
  { rewrite Hps1. apply last_snoc. }
  { intros v Hv. by apply (neighbors_edge _ _ _ HI1). }
  rewrite Hl. destruct r as [|c].
  - destruct Hpost as [Hps2 Hall]. rewrite Hps1 in Hps2.
    destruct (Inv_leave st2 (pathStack st) n HI2 Hps2) as (HI3 & Hps3 & Hv3).
    exists (leave st2 n), NotFound. split; [done|]. split_and!; try done.
    + rewrite Hv3. by apply prefix_app_r.
    + rewrite Hv3. apply topo_snoc; [done|].
      intros v Hv. apply Hall. by apply (neighbors_edge _ _ _ HI1).
    + rewrite Hv3. apply elem_of_app. right. left.
  - exists st2, (Found c). split; [done|]. split_and!; try done.
    destruct Hpost as (Hp & Hc & Hu). split_and!; try done.
    etrans; [|exact Hp]. rewrite Hps1. by apply prefix_app_r.
Qed.

End Detector.

(** ** [runDetection]: correctness *)

Lemma enough_init (G : gmap string (list string)) h :
  length (node_list G) - length (pathStack (mkD h [] [] [])) < fuel_for G.
Proof. unfold fuel_for. simpl. lia. Qed.

Lemma entry_ok_start h g s :
  is_Some (graph_at h g !! s) → entry_ok (graph_at h g) s (mkD h [] [] []) s.
Proof.
  intros Hs. split_and!; [done|by apply key_in_node_list|].
  intros u Hu. done.
Qed.

Lemma topo_nil G : topo G [].
Proof. intros i u v Hu. by rewrite lookup_nil in Hu. Qed.

(** The run of [dfs] that [runDetection] starts. *)
Lemma dfs_from_start h g s :
  is_Some (graph_at h g !! s) →
  ∃ st r, dfs g (fuel_for (graph_at h g)) (mkD h [] [] []) s = Some (st, r) ∧
          dfs_post h g s (mkD h [] [] []) s st r.
Proof.
  intros Hs. apply dfs_spec.
  - apply Inv_init.
  - apply topo_nil.
  - by apply entry_ok_start.
  - apply enough_init.
Qed.

(** A culprit on the path closes a cycle that the start node reaches,
    and the slice of the path from the culprit is a closed walk. *)
Lemma found_cycle h g s st st' c :
  Inv h g s st' → found_post h g st st' c →
  cycle_reachable (graph_at h g) s ∧
  closed_walk (graph_at h g)
    (Js.push (Js.slice (pathStack st') (Js.indexOf (pathStack st') c)) c).
Proof.
  intros HI (_ & Hc & u & Hu & Huc).
  destruct (indexOf_split _ _ Hc) as (l1 & l2 & Hps & Hidx).
  rewrite Hidx, slice_nat, Hps, drop_app_length.
  pose proof (inv_walk HI) as Hw. rewrite Hps in Hw.
  apply walk_app_r in Hw.
  rewrite Hps, last_app_cons in Hu.
  split.
  - exists c. split; [by apply (inv_reach HI)|].
    eapply tc_rtc_l; [by eapply walk_rtc|]. by apply tc_once.
  - unfold Js.push. split_and!.
    + apply walk_snoc; [done|]. intros u' Hu'. rewrite Hu in Hu'.
      by injection Hu' as <-.
    + rewrite length_app. simpl. lia.
    + by rewrite last_snoc.
Qed.

(** When the start node ends up visited, no cycle can be reached. *)
Lemma visited_no_cycle h g s st :
  Inv h g s st → topo (graph_at h g) (visited st) → s ∈ visited st →
  ¬ cycle_reachable (graph_at h g) s.
Proof.
  intros HI Ht Hs (v & Hr & Hc).
  eapply topo_acyclic; [exact Ht|by apply (inv_vis_nodup HI)| |exact Hc].
  by eapply topo_closed.
Qed.



(** The concrete scenarios of the specification. *)
Example detect_scenario1 :
  detect_literal scenario1 "1"
  = Some (mkResult true None (Some ["1"; "2"; "3"]%string)
                   (Some ["2"; "3"; "2"]%string) None None None None).
Proof. vm_compute. reflexivity. Qed.

Example detect_scenario2 :
  detect_literal scenario2 "1"
  = Some (mkResult true None (Some ["1"]%string)
                   (Some ["1"; "1"]%string) None None None None).
Proof. vm_compute. reflexivity. Qed.

Example detect_scenario3 :
  detect_literal scenario3 "1"
  = Some (mkResult false None None None None None None None).
Proof. vm_compute. reflexivity. Qed.

Example detect_scenario4 :
  detect_literal scenario4 "1"
  = Some (mkResult true None (Some ["1"; "2"; "3"; "4"]%string)
                   (Some ["1"; "2"; "3"; "4"; "1"]%string) None None None None).
Proof. vm_compute. reflexivity. Qed.



(** ** Traces *)

Section Trace.

Variables (h : Heap) (graphData : loc) (startNode : string).

Local Abbreviation G := (graph_at h graphData).
Local Abbreviation Inv := (Inv h graphData startNode).
Local Abbreviation TInv := (TInv h graphData startNode).
Local Abbreviation entry_ok := (entry_ok (graph_at h graphData) startNode).
Local Abbreviation enough := (enough (graph_at h graphData)).

Lemma Inv_step_ok st a n e ez ex :
  Inv st →
  step_ok (mkStep a n e ez (visited st) (recursionStack st) (pathStack st) ex).
Proof.
  intros HI. split; simpl.
  - rewrite (inv_stack HI). apply (inv_disjoint HI).
  - by rewrite (inv_stack HI).
Qed.

Lemma visited_grows_snoc log r :
  visited_grows log → Forall (λ r', s_visited r' ⊆ s_visited r) log →
  visited_grows (log ++ [r]).
Proof.
  intros Hg Hb i j ri rj Hij Hi Hj.
  destruct (decide (j < length log)) as [Hlt|Hge].
  - rewrite lookup_app_l in Hi by lia. rewrite lookup_app_l in Hj by lia. eauto.
  - assert (j = length log) as ->.
    { apply lookup_lt_Some in Hj. rewrite length_app in Hj. simpl in Hj. lia. }
    rewrite lookup_app_r, Nat.sub_diag in Hj by lia. injection Hj as <-.
    destruct (decide (i < length log)) as [Hlt|Hge'].
    + rewrite lookup_app_l in Hi by lia.
      rewrite Forall_forall in Hb. apply Hb.
      apply list_elem_of_lookup. eauto.
    + assert (i = length log) as -> by lia.
      rewrite lookup_app_r, Nat.sub_diag in Hi by lia. by injection Hi as <-.
Qed.

Lemma TInv_capture ts a n e ez ex :
  TInv ts → TInv (captureState ts a n e ez ex).
Proof.
  intros [HI Hs Hg Hb]. split; simpl; unfold Js.push.
  - done.
  - apply Forall_app. split; [done|]. apply Forall_singleton.
    by apply Inv_step_ok.
  - by apply visited_grows_snoc.
  - apply Forall_app. split; [done|]. by apply Forall_singleton.
Qed.

Lemma TInv_update ts d :
  TInv ts → Inv d → visited (dstate ts) ⊆ visited d →
  TInv (mkT d (stepsLog ts) (skippedLog ts)).
Proof.
  intros [HI Hs Hg Hb] HId Hsub. split; simpl; try done.
  eapply Forall_impl; [exact Hb|]. intros r Hr. simpl in Hr. by etrans.
Qed.

Lemma TInv_skipped ts sk :
  TInv ts → TInv (mkT (dstate ts) (stepsLog ts) sk).
Proof. intros [HI Hs Hg Hb]. by split. Qed.

Lemma TInv_init : TInv (mkT (mkD h [] [] []) [] []).
Proof.
  split; simpl; try done. apply Inv_init.
Qed.

Lemma TInv_enter ts n :
  TInv ts → entry_ok (dstate ts) n →
  n ∉ pathStack (dstate ts) → n ∉ visited (dstate ts) →
  TInv (on_dstate (λ d, enter d n) ts) ∧
  pathStack (dstate (on_dstate (λ d, enter d n) ts)) = pathStack (dstate ts) ++ [n].
Proof.
  intros HT He Hp Hv.
  destruct (Inv_enter h graphData startNode _ n (tinv_state HT) He Hp Hv) as [HI Hps].
  split; [|done]. by apply TInv_update.
Qed.

Lemma TInv_leave ts ps n :
  TInv ts → pathStack (dstate ts) = ps ++ [n] →
  TInv (on_dstate (λ d, leave d n) ts) ∧
  pathStack (dstate (on_dstate (λ d, leave d n) ts)) = ps ∧
  visited (dstate (on_dstate (λ d, leave d n) ts)) = visited (dstate ts) ++ [n].
Proof.
  intros HT Hps.
  destruct (Inv_leave h graphData startNode _ ps n (tinv_state HT) Hps)
    as (HI & Hps' & Hv').
  split; [|done]. apply TInv_update; [done..|].
  rewrite Hv'. intros x Hx. apply elem_of_app. by left.
Qed.

End Trace.

(** ** The stop-at-first-cycle trace *)

Section StopTrace.

Variables (h : Heap) (graphData : loc) (startNode : string).

Local Abbreviation G := (graph_at h graphData).
Local Abbreviation TInv := (TInv h graphData startNode).
Local Abbreviation entry_ok := (entry_ok (graph_at h graphData) startNode).
Local Abbreviation enough := (enough (graph_at h graphData)).
Local Abbreviation stop_post := (stop_post h graphData startNode).
Local Abbreviation stop_ok := (stop_ok h graphData startNode).

Lemma stop_loop_spec fuel rec cur :
  stop_ok fuel rec →
  ∀ ns ts, TInv ts → enough fuel (dstate ts) →
    last (pathStack (dstate ts)) = Some cur → (∀ v, v ∈ ns → edge G cur v) →
    ∃ ts' r, StopAtFirst.dfs_loop rec cur ns ts = Some (ts', r) ∧
             stop_post ts ts' r.
Proof.
  intros Hrec. induction ns as [|n ns IH]; intros ts HT Hf Hlast Hns.
  - exists ts, StopAtFirst.SNotFound. by split_and!.
  - cbn [StopAtFirst.dfs_loop].
    set (ts1 := Emit.explore_neighbor ts cur n).
    assert (TInv ts1) as HT1 by by apply TInv_capture.
    destruct (Hrec ts1 n HT1) as (ts2 & r & Hr & HT2 & Hsub & Hps); [|done|].
    { eapply entry_ok_neighbor; [apply (tinv_state HT)|done|]. apply Hns. left. }
    rewrite Hr. destruct r as [|c e].
    + specialize (Hps eq_refl). simpl in Hps.
      destruct (IH ts2) as (ts3 & r3 & Hl & HT3 & Hsub3 & Hps3); try done.
      * unfold enough in *. by rewrite Hps.
      * by rewrite Hps.
      * intros v Hv. apply Hns. by right.
      * exists ts3, r3. split; [done|]. split_and!; [done|by etrans|].
        intros Hr3. rewrite (Hps3 Hr3). done.
    + exists ts2, (StopAtFirst.SFound c e). by split_and!.
Qed.

Lemma stop_dfs_spec fuel : stop_ok fuel (StopAtFirst.dfs graphData fuel).
Proof.
  induction fuel as [|fuel IH]; intros ts n HT He Hf.
  { unfold enough in Hf. lia. }
  cbn [StopAtFirst.dfs].
  set (ts1 := Emit.check_in_stack (Emit.enter_node ts n) n).
  assert (TInv ts1) as HT1 by (do 2 apply TInv_capture; done).
  pose proof (tinv_state HT) as HI.
  change (dstate ts1) with (dstate ts).
  destruct (Js.set_has (recursionStack (dstate ts)) n) eqn:Hrs.
  { eexists _, _. split; [done|]. split_and!; [by apply TInv_capture|done|done]. }
  apply set_has_false in Hrs. rewrite (inv_stack HI) in Hrs.
  set (ts2 := Emit.check_visited ts1 n).
  assert (TInv ts2) as HT2 by by apply TInv_capture.
  change (dstate ts2) with (dstate ts).
  destruct (Js.set_has (visited (dstate ts)) n) eqn:Hvis.
  { eexists _, _. split; [done|]. split_and!; [by apply TInv_capture|done|done]. }
  apply set_has_false in Hvis.
  destruct (TInv_enter h graphData startNode ts2 n HT2 He Hrs Hvis) as [HT3 Hps3].
  set (ts3 := on_dstate (λ d, enter d n) ts2) in *.
  set (ts4 := Emit.add_to_stack ts3 n).
  assert (TInv ts4) as HT4 by by apply TInv_capture.
  change (dstate ts4) with (dstate ts3).
  destruct (stop_loop_spec fuel (StopAtFirst.dfs graphData fuel) n IH
              (neighbors_of (heap (dstate ts3)) graphData n) ts4)
    as (ts5 & r & Hl & HT5 & Hsub & Hps5); try done.
  { apply (enough_enter h graphData startNode fuel (dstate ts) n);
      [apply (tinv_state HT3)|done|done]. }
  { change (dstate ts4) with (dstate ts3). rewrite Hps3. apply last_snoc. }
  { intros v Hv.
    by apply (neighbors_edge h graphData startNode _ _ _ (tinv_state HT3)). }
  rewrite Hl. destruct r as [|c e].
  - specialize (Hps5 eq_refl). change (dstate ts4) with (dstate ts3) in Hps5.
    rewrite Hps3 in Hps5.
    set (ts6 := Emit.backtrack ts5 n).
    assert (TInv ts6) as HT6 by by apply TInv_capture.
    destruct (TInv_leave h graphData startNode ts6 (pathStack (dstate ts)) n HT6 Hps5)
      as (HT7 & Hps7 & Hv7).
    eexists _, _. split; [done|]. split_and!.
    + by apply TInv_capture.
    + change (visited (dstate ts) ⊆ visited (dstate (on_dstate (λ d, leave d n) ts6))).
      rewrite Hv7. intros x Hx. apply elem_of_app. left. by apply Hsub.
    + done.
  - eexists _, _. split; [done|]. split_and!; [done|done|done].
Qed.

End StopTrace.

(** ** The skip-and-continue trace *)

Section SkipTrace.

Variables (h : Heap) (graphData : loc) (startNode : string).

Local Abbreviation G := (graph_at h graphData).
Local Abbreviation Inv := (Inv h graphData startNode).
Local Abbreviation TInv := (TInv h graphData startNode).
Local Abbreviation KInv := (KInv h graphData startNode).
Local Abbreviation entry_ok := (entry_ok (graph_at h graphData) startNode).
Local Abbreviation enough := (enough (graph_at h graphData)).
Local Abbreviation closed_up_to := (closed_up_to (graph_at h graphData)).
Local Abbreviation skip_post := (skip_post h graphData startNode).
Local Abbreviation skip_loop_post := (skip_loop_post h graphData startNode).
Local Abbreviation skip_ok := (skip_ok h graphData startNode).

Lemma skip_edges_snoc log r :
  skip_edges (log ++ [r]) = skip_edges log ++ option_list (skip_edge_of r).
Proof.
  unfold skip_edges. rewrite omap_app. simpl.
  by destruct (skip_edge_of r).
Qed.

Lemma count_snoc log (r : Step) :
  length (filter (λ r, action r = CYCLE_FOUND) (log ++ [r]))
  = length (filter (λ r, action r = CYCLE_FOUND) log)
    + (if decide (action r = CYCLE_FOUND) then 1 else 0).
Proof.
  rewrite filter_app, length_app. f_equal.
  destruct (decide (action r = CYCLE_FOUND)) as [Ha|Ha].
  - by rewrite filter_cons_True.
  - by rewrite filter_cons_False.
Qed.

Lemma KInv_capture ts a n e ez ex :
  KInv ts → a ≠ CYCLE_FOUND → (∀ b, ex ≠ SkipExtra b) →
  KInv (captureState ts a n e ez ex).
Proof.
  intros [HT Hc Hs Hn Hb] Ha Hex. split; simpl; unfold Js.push.
  - by apply TInv_capture.
  - done.
  - rewrite skip_edges_snoc, Hs. unfold skip_edge_of. simpl.
    destruct ex; simpl; rewrite ?app_nil_r; try done. by destruct (Hex skippedEdge).
  - rewrite count_snoc. simpl. rewrite decide_False by done. lia.
  - apply Forall_app. split; [done|]. apply Forall_singleton.
    unfold back_edge_record. simpl. destruct ex; try done.
    by destruct (Hex skippedEdge).
Qed.

Lemma KInv_update ts d :
  KInv ts → Inv d → visited (dstate ts) ⊆ visited d → closed_up_to d →
  KInv (mkT d (stepsLog ts) (skippedLog ts)).
Proof.
  intros [HT Hc Hs Hn Hb] HI Hsub Hcd. split; simpl; try done.
  by apply TInv_update.
Qed.

Lemma KInv_init : KInv (mkT (mkD h [] [] []) [] []).
Proof.
  split; simpl; try done.
  - apply TInv_init.
  - intros u v Hu. by apply elem_of_nil in Hu.
Qed.

(** CYCLE_FOUND, [skippedEdges.push(backEdge)], SKIP_CYCLE. *)
Lemma KInv_skip ts n u e1 ez1 e2 ez2 :
  KInv ts → last (pathStack (dstate ts)) = Some u →
  n ∈ pathStack (dstate ts) → edge G u n →
  let ts1 := captureState ts CYCLE_FOUND n e1 ez1 (CycleExtra n) in
  let backEdge := mkCycleEdge (last (pathStack (dstate ts1))) n in
  let ts2 := mkT (dstate ts1) (stepsLog ts1) (Js.push (skippedLog ts1) backEdge) in
  KInv (captureState ts2 SKIP_CYCLE n e2 ez2 (SkipExtra backEdge)).
Proof.
  intros [HT Hc Hs Hn Hb] Hlast Hin Hun. simpl. split; simpl; unfold Js.push.
  - apply TInv_capture.
    apply (TInv_skipped h graphData startNode
             (captureState ts CYCLE_FOUND n e1 ez1 (CycleExtra n))).
    by apply TInv_capture.
  - done.
  - rewrite !skip_edges_snoc, Hs. unfold skip_edge_of. simpl.
    by rewrite app_nil_r.
  - rewrite !count_snoc. simpl. rewrite length_app. simpl. lia.
  - rewrite !Forall_app, !Forall_singleton. split_and!; [done|done|].
    unfold back_edge_record. simpl. rewrite Hlast. eauto.
Qed.

Lemma skip_loop_spec fuel rec cur :
  skip_ok fuel rec →
  ∀ ns ts, KInv ts → enough fuel (dstate ts) →
    last (pathStack (dstate ts)) = Some cur → (∀ v, v ∈ ns → edge G cur v) →
    ∃ ts', SkipAndContinue.dfs_loop rec cur ns ts = Some ts' ∧
           skip_loop_post ts ns ts'.
Proof.
  intros Hrec. induction ns as [|n ns IH]; intros ts HK Hf Hlast Hns.
  - exists ts. split; [done|]. split_and!; try done.
    intros v Hv. by apply elem_of_nil in Hv.
  - cbn [SkipAndContinue.dfs_loop].
    set (ts1 := Emit.explore_neighbor ts cur n).
    assert (KInv ts1) as HK1 by by apply KInv_capture.
    destruct (Hrec ts1 n HK1) as (ts2 & r & Hr & HK2 & Hsub & Hps & Hn); [|done|].
    { eapply entry_ok_neighbor;
        [apply (tinv_state (kinv_trace HK))|done|]. apply Hns. left. }
    rewrite Hr. simpl in Hps, Hsub, Hn.
    destruct (IH ts2) as (ts3 & Hl & HK3 & Hsub3 & Hps3 & Hall); try done.
    + unfold enough in *. by rewrite Hps.
    + by rewrite Hps.
    + intros v Hv. apply Hns. by right.
    + exists ts3. split; [done|]. split_and!; [done|by etrans|congruence|].
      intros v [->|Hv]%elem_of_cons.
      * destruct Hn as [Hn|Hn]; [left; by apply Hsub3|by right].
      * rewrite <- Hps. by apply Hall.
Qed.

Lemma skip_dfs_spec fuel : skip_ok fuel (SkipAndContinue.dfs graphData fuel).
Proof.
  induction fuel as [|fuel IH]; intros ts n HK He Hf.
  { unfold enough in Hf. lia. }
  cbn [SkipAndContinue.dfs].
  set (ts1 := Emit.check_in_stack (Emit.enter_node ts n) n).
  assert (KInv ts1) as HK1 by (do 2 (apply KInv_capture; [|done..]); done).
  pose proof (tinv_state (kinv_trace HK)) as HI.
  change (dstate ts1) with (dstate ts).
  destruct (Js.set_has (recursionStack (dstate ts)) n) eqn:Hrs.
  { apply set_has_true in Hrs. rewrite (inv_stack HI) in Hrs.
    destruct (last (pathStack (dstate ts))) as [u|] eqn:Hlast.
    2:{ apply last_None in Hlast. rewrite Hlast in Hrs.
        by apply elem_of_nil in Hrs. }
    eexists _, _. split; [done|]. split_and!; [|done|done|by right].
    apply (KInv_skip ts1 n u); try done. by apply He. }
  apply set_has_false in Hrs. rewrite (inv_stack HI) in Hrs.
  set (ts2 := Emit.check_visited ts1 n).
  assert (KInv ts2) as HK2 by by apply KInv_capture.
  change (dstate ts2) with (dstate ts).
  destruct (Js.set_has (visited (dstate ts)) n) eqn:Hvis.
  { apply set_has_true in Hvis.
    eexists _, _. split; [done|].
    split_and!; [by apply KInv_capture|done|done|by left]. }
  apply set_has_false in Hvis.
  destruct (Inv_enter h graphData startNode (dstate ts) n HI He Hrs Hvis)
    as [HI3 Hps3].
  set (ts3 := on_dstate (λ d, enter d n) ts2).
  assert (KInv ts3) as HK3.
  { apply (KInv_update ts2); [done|done|done|].
    apply closed_enter. apply (kinv_closed HK). }
  set (ts4 := Emit.add_to_stack ts3 n).
  assert (KInv ts4) as HK4 by by apply KInv_capture.
  change (dstate ts4) with (enter (dstate ts) n).
  destruct (skip_loop_spec fuel (SkipAndContinue.dfs graphData fuel) n IH
              (neighbors_of (heap (enter (dstate ts) n)) graphData n) ts4)
    as (ts5 & Hl & HK5 & Hsub & Hps5 & Hall); try done.
  { by apply (enough_enter h graphData startNode fuel (dstate ts) n). }
  { change (dstate ts4) with (enter (dstate ts) n). rewrite Hps3. apply last_snoc. }
  { intros v Hv. by apply (neighbors_edge h graphData startNode _ _ _ HI3). }
  rewrite Hl. change (dstate ts4) with (enter (dstate ts) n) in *.
  rewrite Hps3 in Hps5, Hall.
  set (ts6 := Emit.backtrack ts5 n).
  assert (KInv ts6) as HK6 by by apply KInv_capture.
  destruct (Inv_leave h graphData startNode (dstate ts5) (pathStack (dstate ts)) n
              (tinv_state (kinv_trace HK5)) Hps5) as (HI7 & Hps7 & Hv7).
  set (ts7 := on_dstate (λ d, leave d n) ts6).
  assert (KInv ts7) as HK7.
  { apply (KInv_update ts6); [done|done| |].
    - change (dstate ts6) with (dstate ts5). rewrite Hv7.
      intros x Hx. apply elem_of_app. by left.
    - apply (closed_leave _ _ (pathStack (dstate ts))); try done.
      + apply (kinv_closed HK5).
      + intros v Hv. apply Hall.
        by apply (neighbors_edge h graphData startNode _ _ _ HI3). }
  eexists _, _. split; [done|]. split_and!.
  - by apply KInv_capture.
  - change (visited (dstate ts) ⊆ visited (leave (dstate ts5) n)).
    rewrite Hv7. intros x Hx. apply elem_of_app. left. by apply Hsub.
  - done.
  - left. change (n ∈ visited (leave (dstate ts5) n)). rewrite Hv7.
    apply elem_of_app. right. left.
Qed.

End SkipTrace.

(** ** The instrumented detectors: runs from the start node *)

Lemma stop_from_start h g s :
  is_Some (graph_at h g !! s) →
  ∃ ts r, StopAtFirst.dfs g (fuel_for (graph_at h g)) (trace_init h s) s
          = Some (ts, r) ∧
          stop_post h g s (trace_init h s) ts r.
Proof.
  intros Hs. apply stop_dfs_spec.
  - apply TInv_capture, TInv_init.
  - by apply entry_ok_start.
  - apply enough_init.
Qed.

Lemma skip_from_start h g s :
  is_Some (graph_at h g !! s) →
  ∃ ts r, SkipAndContinue.dfs g (fuel_for (graph_at h g)) (trace_init h s) s
          = Some (ts, r) ∧
          skip_post h g s (trace_init h s) s ts.
Proof.
  intros Hs. apply skip_dfs_spec.
  - apply KInv_capture; [apply KInv_init|done..].
  - by apply entry_ok_start.
  - apply enough_init.
Qed.






(** ** The stop-at-first-cycle detector against the plain detector *)

Lemma stop_loop_refines rec rec' cur :
  refines rec rec' →
  ∀ ns ts,
    match dfs_loop rec ns (dstate ts) with
    | None => StopAtFirst.dfs_loop rec' cur ns ts = None
    | Some (st', r) =>
        ∃ ts' r', StopAtFirst.dfs_loop rec' cur ns ts = Some (ts', r') ∧
                  dstate ts' = st' ∧ erase r' = r
    end.
Proof.
  intros Hrec. induction ns as [|n ns IH]; intros ts.
  - simpl. by exists ts, StopAtFirst.SNotFound.
  - cbn [dfs_loop StopAtFirst.dfs_loop].
    pose proof (Hrec (Emit.explore_neighbor ts cur n) n) as Hn.
    change (dstate (Emit.explore_neighbor ts cur n)) with (dstate ts) in Hn.
    destruct (rec (dstate ts) n) as [[st1 r1]|].
    + destruct Hn as (ts1 & r1' & -> & <- & <-).
      destruct r1' as [|c e]; simpl.
      * apply IH.
      * by exists ts1, (StopAtFirst.SFound c e).
    + by rewrite Hn.
Qed.

Lemma stop_dfs_refines g fuel : refines (dfs g fuel) (StopAtFirst.dfs g fuel).
Proof.
  induction fuel as [|fuel IH]; intros ts n; [done|].
  cbn [dfs StopAtFirst.dfs].
  change (dstate (Emit.check_in_stack (Emit.enter_node ts n) n)) with (dstate ts).
  destruct (Js.set_has (recursionStack (dstate ts)) n).
  { eexists _, _. by split_and!. }
  change (dstate (Emit.check_visited
                    (Emit.check_in_stack (Emit.enter_node ts n) n) n))
    with (dstate ts).
  destruct (Js.set_has (visited (dstate ts)) n).
  { eexists _, _. by split_and!. }
  set (ts4 := Emit.add_to_stack _ n).
  pose proof (stop_loop_refines _ _ n IH
                (neighbors_of (heap (enter (dstate ts) n)) g n) ts4) as Hl.
  change (dstate ts4) with (enter (dstate ts) n) in Hl.
  change (heap (dstate _)) with (heap (enter (dstate ts) n)).
  destruct (dfs_loop (dfs g fuel) _ (enter (dstate ts) n)) as [[st2 r2]|].
  - destruct Hl as (ts2 & r2' & -> & <- & <-).
    destruct r2' as [|c e]; simpl; eexists _, _; by split_and!.
  - by rewrite Hl.
Qed.

(** The two detectors agree on [found], [loopPath], [path] and [error];
    only the instrumented one reports a [cycleEdge]. *)
Lemma stepped_agrees_with_plain h g s :
  match runDetection h g s with
  | None => StopAtFirst.runDetectionWithSteps h g s = None
  | Some (h', r) =>
      ∃ r', StopAtFirst.runDetectionWithSteps h g s = Some (h', r') ∧
            found r' = found r ∧ loopPath r' = loopPath r ∧
            path r' = path r ∧ error r' = error r ∧
            cycleEdge r = None ∧
            (found r = true → is_Some (cycleEdge r'))
  end.
Proof.
  unfold runDetection, StopAtFirst.runDetectionWithSteps.
  destruct (graph_at h g !! s) as [l|].
  - pose proof (stop_dfs_refines g (fuel_for (graph_at h g)) (trace_init h s) s) as Hd.
    change (dstate (trace_init h s)) with (mkD h [] [] []) in Hd.
    unfold trace_init in Hd.
    destruct (dfs g (fuel_for (graph_at h g)) (mkD h [] [] []) s) as [[st r]|].
    + destruct Hd as (ts & r' & -> & <- & <-).
      destruct r' as [|c e]; simpl; eexists; split_and!; try done.
    + by rewrite Hd.
  - eexists. split_and!; done.
Qed.

(** C3, at the graph of scenario 1 started from node 1: both detectors
    find the cycle 2, 3, 2, but the plain detector returns no [cycleEdge]
    where the instrumented one returns the back-edge from 3 to 2. *)
Theorem plain_detector_omits_cycleEdge :
  ∃ r r',
    runDetection scenario1_heap scenario1_ref "1" = Some (scenario1_heap, r) ∧
    StopAtFirst.runDetectionWithSteps scenario1_heap scenario1_ref "1"
    = Some (scenario1_heap, r') ∧
    found r = true ∧ found r' = true ∧
    loopPath r = Some ["2"; "3"; "2"]%string ∧ loopPath r' = loopPath r ∧
    cycleEdge r = None ∧
    cycleEdge r' = Some (mkCycleEdge (Some "3"%string) "2"%string) ∧
    cycleEdge r' ≠ cycleEdge r.
Proof.
  eexists _, _. split; [vm_compute; reflexivity|].
  split; [vm_compute; reflexivity|].
  split_and!; try done.
Qed.

(** ** Heaps *)

Lemma preserves_refl h : preserves h h.
Proof. by split. Qed.

Lemma preserves_graph h0 h g :
  valid_graph h0 g → preserves h0 h → graph_at h g = graph_at h0 g.
Proof.
  intros (tbl & Ho & Harr) [Hobj Ha]. unfold graph_at.
  rewrite Hobj by (by rewrite Ho). rewrite Ho. simpl.
  apply map_eq. intros k. rewrite !lookup_omap.
  destruct (tbl !! k) as [l|] eqn:Hk; [|done]. simpl.
  apply Ha. by eapply Harr.
Qed.

Lemma alloc_props_spec kvs h :
  NoDup kvs.*1 →
  ∀ tbl h1, alloc_props kvs h = (tbl, h1) →
    objs h1 = objs h ∧
    (∀ l, is_Some (arrs h !! l) → arrs h1 !! l = arrs h !! l) ∧
    (∀ k l, tbl !! k = Some l →
       arrs h !! l = None ∧ ∃ a, arrs h1 !! l = Some a ∧ (k, a) ∈ kvs) ∧
    (∀ k a, (k, a) ∈ kvs → ∃ l, tbl !! k = Some l ∧ arrs h1 !! l = Some a) ∧
    (∀ k1 k2 l, tbl !! k1 = Some l → tbl !! k2 = Some l → k1 = k2).
Proof.
  induction kvs as [|[k a] kvs IH]; intros Hnd tbl h1 Heq.
  - simpl in Heq. injection Heq as <- <-. split_and!; try done.
    intros k a Hin. by apply elem_of_nil in Hin.
  - simpl in Heq. destruct (alloc_props kvs h) as [tbl0 h0] eqn:Hrec.
    injection Heq as <- <-.
    apply NoDup_cons in Hnd as [Hk Hnd].
    destruct (IH Hnd tbl0 h0 eq_refl) as (Ho & Hfr & Htbl & Hall & Hinj).
    set (l := fresh (dom (arrs h0))).
    assert (arrs h0 !! l = None) as Hl.
    { apply not_elem_of_dom. apply is_fresh. }
    assert (∀ k', tbl0 !! k' ≠ Some l) as Hnl.
    { intros k' Hk'. destruct (Htbl k' l Hk') as (_ & a' & Ha' & _). congruence. }
    simpl. split_and!.
    + done.
    + intros l0 Hl0. rewrite lookup_insert_ne; [by apply Hfr|].
      intros <-. rewrite <- Hfr in Hl0 by done. rewrite Hl in Hl0.
      by destruct Hl0.
    + intros k' l'. destruct (decide (k = k')) as [<-|Hne].
      * rewrite lookup_insert_eq. intros [= <-]. split.
        -- destruct (arrs h !! l) as [x|] eqn:Hx; [|done].
           rewrite <- Hfr in Hx by (by rewrite Hx). congruence.
        -- exists a. rewrite lookup_insert_eq. split; [done|left].
      * rewrite lookup_insert_ne by done. intros Hk'.
        destruct (Htbl k' l' Hk') as (Hn & a' & Ha' & Hin). split; [done|].
        exists a'. split; [|by right].
        rewrite lookup_insert_ne; [done|]. intros <-. congruence.
    + intros k' a' [[= -> ->]|Hin]%elem_of_cons.
      * exists l. by rewrite !lookup_insert_eq.
      * assert (k ≠ k') as Hne.
        { intros <-. apply Hk. apply list_elem_of_fmap. by exists (k, a'). }
        destruct (Hall k' a' Hin) as (l' & Hl' & Ha').
        exists l'. rewrite lookup_insert_ne by done. split; [done|].
        rewrite lookup_insert_ne; [done|]. intros <-. by apply (Hnl k').
    + intros k1 k2 l0.
      destruct (decide (k = k1)) as [<-|Hne1]; destruct (decide (k = k2)) as [<-|Hne2];
        rewrite ?lookup_insert_eq, ?lookup_insert_ne by done; try done.
      * intros [= <-] Hk2. by destruct (Hnl k2).
      * intros Hk1 [= <-]. by destruct (Hnl k1).
      * apply Hinj.
Qed.

(** [JSON.parse(JSON.stringify(graphData))] builds a graph equal to the
    given one out of storage of its own. *)
Lemma json_parse_spec (text : gmap string (list string)) h h1 o :
  json_parse text h = (h1, o) →
  graph_at h1 o = text ∧ preserves h h1 ∧ own_arrays h1 o ∧ private h h1 o.
Proof.
  unfold json_parse. destruct (alloc_props (map_to_list text) h) as [tbl h'] eqn:Ha.
  intros [= <- <-].
  destruct (alloc_props_spec _ h (NoDup_fst_map_to_list text) tbl h' Ha)
    as (Ho & Hfr & Htbl & Hall & Hinj).
  set (o := fresh (dom (objs h'))).
  assert (objs h' !! o = None) as Hfresh.
  { apply not_elem_of_dom. apply is_fresh. }
  split_and!.
  - unfold graph_at. simpl. rewrite lookup_insert_eq. simpl.
    apply map_eq. intros k. rewrite lookup_omap.
    destruct (text !! k) as [a|] eqn:Hk.
    + apply elem_of_map_to_list in Hk.
      destruct (Hall k a Hk) as (l & -> & Hl). done.
    + destruct (tbl !! k) as [l|] eqn:Hl; [|done]. simpl.
      destruct (Htbl k l Hl) as (_ & a & _ & Hin).
      apply elem_of_map_to_list in Hin. congruence.
  - split; simpl; [|done].
    intros o' Ho'. rewrite lookup_insert_ne; [by rewrite Ho|].
    intros <-. rewrite <- Ho, Hfresh in Ho'. by destruct Ho'.
  - exists tbl. simpl. rewrite lookup_insert_eq. split_and!; [done| |done].
    intros k l Hl. destruct (Htbl k l Hl) as (_ & a & -> & _). done.
  - split; [by rewrite <- Ho|]. exists tbl. simpl. rewrite lookup_insert_eq.
    split; [done|]. intros k l Hl. by destruct (Htbl k l Hl).
Qed.

(** Removing element [i] of the array behind property [k]. *)
Lemma splice_at_spec h0 h o k a i :
  own_arrays h o → preserves h0 h → private h0 h o →
  graph_at h o !! k = Some a →
  ∃ h', splice_at h o k i = Some h' ∧
        graph_at h' o = <[k := delete i a]> (graph_at h o) ∧
        own_arrays h' o ∧ preserves h0 h' ∧ private h0 h' o.
Proof.
  intros (tbl & Ho & Harr & Hinj) [Hpo Hpa] (Hn & tbl' & Ho' & Hpriv) Hk.
  rewrite Ho in Ho'. injection Ho' as <-.
  unfold graph_at in Hk. rewrite Ho in Hk. simpl in Hk.
  rewrite lookup_omap in Hk.
  destruct (tbl !! k) as [l|] eqn:Hl; [|done]. simpl in Hk.
  unfold splice_at. rewrite Ho. simpl. rewrite Hl. simpl. rewrite Hk. simpl.
  eexists. split; [done|]. split_and!.
  - unfold graph_at. simpl. rewrite Ho. simpl.
    apply map_eq. intros k'. rewrite lookup_omap.
    destruct (decide (k = k')) as [<-|Hne].
    + rewrite Hl, lookup_insert_eq. simpl. by rewrite lookup_insert_eq.
    + rewrite (lookup_insert_ne _ k k') by done. rewrite lookup_omap.
      destruct (tbl !! k') as [l'|] eqn:Hl'; [|done]. simpl.
      rewrite lookup_insert_ne; [done|].
      intros <-. apply Hne. by eapply Hinj.
  - exists tbl. simpl. split_and!; [done| |done].
    intros k' l' Hl'. destruct (decide (l = l')) as [<-|Hne].
    + by rewrite lookup_insert_eq.
    + rewrite lookup_insert_ne by done. by eapply Harr.
  - split; simpl; [done|]. intros l' Hl'.
    rewrite lookup_insert_ne; [by apply Hpa|].
    intros <-. rewrite (Hpriv k l Hl) in Hl'. by destruct Hl'.
  - split; [done|]. by exists tbl.
Qed.

(** ** [removeCycles]: the invariant is maintained *)

Lemma filter_ext_elem {A} (P Q : A → Prop)
    `{!∀ x, Decision (P x), !∀ x, Decision (Q x)} (l : list A) :
  (∀ x, x ∈ l → (P x ↔ Q x)) → filter P l = filter Q l.
Proof.
  induction l as [|x l IH]; intros Hext; [done|].
  rewrite !filter_cons.
  rewrite IH by (intros y Hy; apply Hext; by right).
  destruct (decide (P x)) as [HP|HP], (decide (Q x)) as [HQ|HQ]; try done.
  - destruct HQ. apply Hext; [left|done].
  - destruct HP. apply Hext; [left|done].
Qed.

Lemma filter_all {A} (P : A → Prop) `{!∀ x, Decision (P x)} (l : list A) :
  (∀ x, x ∈ l → P x) → filter P l = l.
Proof.
  induction l as [|x l IH]; intros Hall; [done|].
  rewrite filter_cons_True by (apply Hall; left).
  f_equal. apply IH. intros y Hy. apply Hall. by right.
Qed.

Lemma kept_snoc_other removed u a e :
  source e ≠ u → kept (removed ++ [e]) u a = kept removed u a.
Proof.
  intros Hne. unfold kept. apply list_filter_iff. intros v.
  rewrite elem_of_app, list_elem_of_singleton.
  split; [tauto|]. intros Hn [Hr|He]; [done|]. apply Hne. by rewrite <- He.
Qed.

Lemma edge_insert_delete (V : gmap string (list string)) k a i u v :
  V !! k = Some a → edge (<[k := delete i a]> V) u v → edge V u v.
Proof.
  intros Hk (l & Hl & Hv). destruct (decide (k = u)) as [<-|Hne].
  - rewrite lookup_insert_eq in Hl. injection Hl as <-.
    exists a. split; [done|]. by eapply list_elem_of_delete_inv.
  - rewrite lookup_insert_ne in Hl by done. by exists l.
Qed.

Lemma topo_mono (V V' : gmap string (list string)) vis :
  (∀ u v, edge V' u v → edge V u v) → topo V vis → topo V' vis.
Proof. intros Hsub Ht i u v Hu Huv. apply (Ht i u v Hu). by apply Hsub. Qed.

Section Elim.

Variables (h0 : Heap) (G0 : gmap string (list string)) (sg : loc)
          (startNode : string).

Local Abbreviation RInv := (RInv h0 G0 sg startNode).
Local Abbreviation LInv := (LInv h0 G0 sg startNode).
Local Abbreviation rc_post := (rc_post h0 G0 sg startNode).
Local Abbreviation rc_ok := (rc_ok h0 G0 sg startNode).
Local Abbreviation rc_loop_post := (rc_loop_post h0 G0 sg startNode).
Local Abbreviation rc_frame := (rc_frame sg).

Lemma rc_frame_refl ps cur st : rc_frame ps cur st st.
Proof. by split. Qed.

Lemma rc_frame_trans ps cur st1 st2 st3 :
  rc_frame ps cur st1 st2 → rc_frame ps cur st2 st3 → rc_frame ps cur st1 st3.
Proof.
  intros [Hv1 Hr1 Hf1 Hn1] [Hv2 Hr2 Hf2 Hn2]. split.
  - by etrans.
  - by etrans.
  - intros u Hu Hne. rewrite Hf2, Hf1; done.
  - intros e He3 He1. destruct (decide (e ∈ removedLog st2)) as [He2|He2].
    + by apply Hn1.
    + by apply Hn2.
Qed.

(** [recursionStack.add(n); pathStack.push(n)] *)
Lemma RInv_enter st n :
  RInv st → entry_ok G0 startNode (rd st) n →
  n ∉ pathStack (rd st) → n ∉ visited (rd st) →
  RInv (mkR (enter (rd st) n) (removedLog st)) ∧
  pathStack (enter (rd st) n) = pathStack (rd st) ++ [n].
Proof.
  intros [HP Hc Ho Hpr Hpv Ht Hd Hf Hs Hb] He Hnp Hnv.
  destruct (PInv_enter G0 startNode (rd st) n HP He Hnp Hnv) as [HP' Hps].
  split; [|done]. split; cbn [rd removedLog]; try done.
  - by apply closed_enter.
  - intros u Hu Hu'. apply Hf; [done|]. intros Hin. apply Hu'.
    rewrite Hps. apply elem_of_app. by left.
  - intros e He'. rewrite Hps. destruct (Hs e He') as [?|?]; [by left|].
    right. apply elem_of_app. by left.
Qed.

(** [safeGraph[cur].splice(i, 1); removedEdges.push({cur, v})] on a
    back-edge from the top of the path. *)
Lemma RInv_splice st cur a i v :
  RInv st → last (pathStack (rd st)) = Some cur →
  view sg st !! cur = Some a →
  edge G0 cur v → v ∈ pathStack (rd st) →
  ∃ h', splice_at (heap (rd st)) sg cur i = Some h' ∧
    let st' := mkR (mkD h' (visited (rd st)) (recursionStack (rd st))
                        (pathStack (rd st)))
                   (Js.push (removedLog st) (mkEdge cur v)) in
    RInv st' ∧ view sg st' = <[cur := delete i a]> (view sg st).
Proof.
  intros [HP Hc Ho Hpr Hpv Ht Hd Hf Hs Hb] Hlast Ha Hcv Hv.
  destruct (splice_at_spec h0 _ sg cur a i Ho Hpr Hpv Ha)
    as (h' & Hsp & Hview & Ho' & Hpr' & Hpv').
  exists h'. split; [done|]. cbv zeta.
  assert (cur ∈ pathStack (rd st)) as Hcur by by apply last_Some_elem_of.
  assert (cur ∉ visited (rd st)) as Hcv'.
  { intros Hin. by apply (pinv_disjoint HP cur). }
  split; [|done].
  split; unfold view, Js.push;
    cbn [rd removedLog visited pathStack recursionStack heap];
    rewrite ?Hview; try done.
  - by destruct HP.
  - eapply topo_mono; [|exact Ht]. intros u w. by apply edge_insert_delete.
  - intros u Hu.
    assert (cur ≠ u) as Hne by (intros <-; done).
    rewrite lookup_insert_ne by done. specialize (Hd u Hu).
    unfold view in Hd. rewrite Hd.
    destruct (G0 !! u) as [a0|]; [simpl|done].
    by rewrite kept_snoc_other.
  - intros u Hu Hu'.
    rewrite lookup_insert_ne by (intros <-; done). by apply Hf.
  - intros e [He|He]%elem_of_app; [by apply Hs|].
    apply list_elem_of_singleton in He as ->. by right.
  - intros e [He|He]%elem_of_app; [by apply Hb|].
    apply list_elem_of_singleton in He as ->. simpl. split_and!; [done|..].
    + by apply (pinv_reach HP).
    + apply list_elem_of_split in Hv as (l1 & l2 & Hps).
      pose proof (pinv_walk HP) as Hw. rewrite Hps in Hw, Hlast.
      apply walk_app_r in Hw. rewrite last_app_cons in Hlast.
      by eapply walk_rtc.
Qed.

(** [recursionStack.delete(n); pathStack.pop(); visited.add(n)] *)
Lemma RInv_leave st0 st ps n :
  rc_loop_post n ps st0 st →
  let st' := mkR (leave (rd st) n) (removedLog st) in
  RInv st' ∧ pathStack (rd st') = ps ∧
  visited (rd st') = visited (rd st) ++ [n] ∧ view sg st' = view sg st.
Proof.
  intros [[HP Hc Ho Hpr Hpv Ht Hd Hf Hs Hb] Hps Hl Hsucc Horig _]. simpl.
  destruct (PInv_leave G0 startNode (rd st) ps n HP Hps) as (HP' & Hps' & Hv').
  split_and!; try done.
  split; cbn [rd removedLog]; rewrite ?Hv', ?Hps'; try done.
  - by apply (closed_leave _ _ ps).
  - apply topo_snoc; [exact Ht|exact Hsucc].
  - intros u [Hu|Hu]%elem_of_app; [by apply Hd|].
    by apply list_elem_of_singleton in Hu as ->.
  - intros u Hu Hu'. apply Hf.
    + intros Hin. apply Hu. apply elem_of_app. by left.
    + rewrite Hps. intros [Hin|Hin]%elem_of_app; [done|].
      apply Hu. apply elem_of_app. by right.
  - intros e He. destruct (Hs e He) as [Hin|Hin].
    + left. apply elem_of_app. by left.
    + rewrite Hps in Hin. apply elem_of_app in Hin as [Hin|Hin]; [by right|].
      left. apply elem_of_app. by right.
Qed.

Lemma rc_frame_weaken ps cur st st' :
  rc_frame ps None st st' → rc_frame ps (Some cur) st st'.
Proof.
  intros [Hv Hr Hf Hn]. split; try done.
  - intros u Hu _. by apply Hf.
  - intros e He He'. destruct (Hn e He He') as [?|?]; [done|by right].
Qed.

Lemma rc_loop_spec fuel rec cur a0 ps :
  rc_ok fuel rec → G0 !! cur = Some a0 → last ps = Some cur →
  ∀ k st, k ≤ length a0 → LInv cur a0 ps k st → enough G0 fuel (rd st) →
    ∃ st', RemoveCycles.dfs_loop rec sg cur k st = Some st' ∧
           LInv cur a0 ps 0 st' ∧ rc_frame ps (Some cur) st st'.
Proof.
  intros Hrec Ha0 Hlast. induction k as [|i IH]; intros st Hk HL Hfuel.
  { exists st. split; [done|]. split; [done|apply rc_frame_refl]. }
  destruct HL as [HR Hps Hlist Hseen Hcut Honly].
  destruct (lookup_lt_is_Some_2 a0 i) as [v Hv]; [lia|].
  rewrite (take_S_r a0 i v Hv), <- app_assoc in Hlist.
  assert (length (take i a0) = i) as Hlen by (rewrite length_take; lia).
  assert (edge G0 cur v) as Hcv.
  { exists a0. split; [done|]. by eapply list_elem_of_lookup_2. }
  assert (cur ∈ ps) as Hcur by by apply last_Some_elem_of.
  pose proof (rinv_path HR) as HP.
  assert (Js.show (neighbors_of (heap (rd st)) sg cur !! i) = v) as Hnb.
  { unfold neighbors_of. change (graph_at (heap (rd st)) sg) with (view sg st).
    rewrite Hlist. simpl. by rewrite lookup_app_r, Hlen, Nat.sub_diag by lia. }
  cbn [RemoveCycles.dfs_loop]. rewrite Hnb.
  destruct (Js.set_has (recursionStack (rd st)) v) eqn:Hrs.
  - (* a back-edge: removed *)
    apply set_has_true in Hrs. rewrite (pinv_stack HP), Hps in Hrs.
    destruct (RInv_splice st cur _ i v HR (eq_ind_r (λ l, last l = Some cur) Hlast Hps)
                Hlist Hcv) as (h' & Hsp & HR' & Hview'); [by rewrite Hps|].
    rewrite Hsp.
    set (st' := mkR (mkD h' (visited (rd st)) (recursionStack (rd st))
                         (pathStack (rd st)))
                    (Js.push (removedLog st) (mkEdge cur v))) in *.
    destruct (IH st') as (st'' & Hrun & HL'' & Hfr); [lia| |done|].
    { split; try done.
      - rewrite Hview', lookup_insert_eq. f_equal.
        rewrite (drop_S a0 v i Hv), filter_cons_False by (intros H; by apply H).
        rewrite <- Hlen at 1.
        apply (delete_middle (take i a0)
                 (filter (λ w, w ∉ ps) (drop (S i) a0)) v).
      - rewrite (drop_S a0 v i Hv). intros w [->|Hw]%elem_of_cons; [by left|].
        by apply Hseen.
      - rewrite (drop_S a0 v i Hv). unfold st', Js.push. cbn [removedLog].
        intros w [->|Hw]%elem_of_cons Hin; apply elem_of_app.
        + right. left.
        + left. by apply Hcut.
      - unfold st', Js.push. cbn [removedLog].
        intros e [He|He]%elem_of_app Hsrc; [by apply Honly|].
        by apply list_elem_of_singleton in He as ->. }
    exists st''. split; [done|]. split; [done|].
    eapply rc_frame_trans; [|exact Hfr]. split.
    + done.
    + by apply prefix_app_r.
    + intros u Hu Hne. rewrite Hview'.
      rewrite lookup_insert_ne; [done|]. intros <-. done.
    + unfold st', Js.push. cbn [removedLog].
      intros e [He|He]%elem_of_app Hn; [done|].
      apply list_elem_of_singleton in He as ->. by left.
  - apply set_has_false in Hrs. rewrite (pinv_stack HP), Hps in Hrs.
    assert (∀ st1, RInv st1 → pathStack (rd st1) = ps →
              view sg st1 !! cur = view sg st !! cur →
              v ∈ visited (rd st1) → rc_frame ps None st st1 →
              LInv cur a0 ps i st1) as Hnext.
    { intros st1 HR1 Hps1 Hview1 Hvis1 [Hfv Hfr Hff Hfn]. split; try done.
      - rewrite Hview1, Hlist. f_equal.
        by rewrite (drop_S a0 v i Hv), filter_cons_True.
      - rewrite (drop_S a0 v i Hv). intros w [->|Hw]%elem_of_cons; [by right|].
        destruct (Hseen w Hw) as [?|Hin]; [by left|right].
        destruct Hfv as [k ->]. apply elem_of_app. by left.
      - rewrite (drop_S a0 v i Hv). intros w [->|Hw]%elem_of_cons Hin; [done|].
        destruct Hfr as [k ->]. apply elem_of_app. left. by apply Hcut.
      - intros e He Hsrc. destruct (decide (e ∈ removedLog st)) as [Hold|Hnew].
        + by apply Honly.
        + destruct (Hfn e He Hnew) as [Heq|Hn]; [done|].
          rewrite Hsrc in Hn. done. }
    destruct (Js.set_has (visited (rd st)) v) eqn:Hvis.
    + (* already visited: the edge stays *)
      apply set_has_true in Hvis.
      apply IH; [lia| |done].
      apply Hnext; first [done|apply rc_frame_refl].
    + (* a new node: recursive call *)
      apply set_has_false in Hvis.
      destruct (Hrec st v HR) as (st1 & Hr1 & HR1 & Hps1 & Hvis1 & Hfr1); try done.
      { eapply path_entry_ok_neighbor; [done|by rewrite Hps|done]. }
      { by rewrite Hps. }
      rewrite Hr1. rewrite Hps in Hps1, Hfr1.
      destruct (IH st1) as (st2 & Hrun & HL2 & Hfr2); [lia| | |].
      { apply Hnext; try done.
        by apply (fr_view _ _ _ _ _ Hfr1). }
      { unfold enough in *. by rewrite Hps1, <- Hps. }
      exists st2. split; [done|]. split; [done|].
      eapply rc_frame_trans; [|exact Hfr2]. by apply rc_frame_weaken.
Qed.

(** The loop over the successors of a node that was just entered. *)
Lemma rc_loop_from_entry fuel st n :
  rc_ok fuel (RemoveCycles.dfs sg fuel) → RInv st →
  entry_ok G0 startNode (rd st) n →
  n ∉ pathStack (rd st) → n ∉ visited (rd st) → enough G0 (S fuel) (rd st) →
  let st1 := mkR (enter (rd st) n) (removedLog st) in
  ∃ st2,
    RemoveCycles.dfs_loop (RemoveCycles.dfs sg fuel) sg n
            (length (neighbors_of (heap (rd st1)) sg n)) st1 = Some st2 ∧
    rc_loop_post n (pathStack (rd st)) st1 st2.
Proof.
  intros IH HR He Hnp Hnv Hf st1.
  destruct (RInv_enter st n HR He Hnp Hnv) as [HR1 Hps1]. fold st1 in HR1.
  assert (view sg st !! n = G0 !! n) as Hn by by apply (rinv_fresh HR).
  assert (enough G0 fuel (rd st1)) as Hf1.
  { apply (path_enough_enter G0 startNode); [apply (rinv_path HR1)|done..]. }
  destruct (G0 !! n) as [a0|] eqn:Ha0.
  - assert (neighbors_of (heap (rd st1)) sg n = a0) as ->.
    { unfold neighbors_of. change (graph_at (heap (rd st1)) sg) with (view sg st).
      by rewrite Hn. }
    destruct (rc_loop_spec fuel _ n a0 (pathStack (rd st) ++ [n]) IH Ha0
                (last_snoc _ _) (length a0) st1)
      as (st2 & Hrun & [HR2 Hps2 Hlist Hseen Hcut Honly] & Hfr); [lia| |done|].
    { split; try done.
      - rewrite take_ge, drop_all, filter_nil, app_nil_r by lia. exact Hn.
      - rewrite drop_all. by intros v ?%elem_of_nil.
      - rewrite drop_all. by intros v ?%elem_of_nil.
      - intros e Hin Hsrc. exfalso.
        destruct (rinv_sources HR e Hin) as [?|?]; rewrite Hsrc in *; done. }
    simpl in Hlist, Hseen, Hcut. rewrite drop_0 in *.
    exists st2. split; [done|]. split; try done.
    + rewrite Hlist, Ha0. simpl. f_equal. unfold kept. apply filter_ext_elem.
      intros v Hv. split.
      * intros Hnot Hin. apply Hnot. by apply (Honly _ Hin).
      * intros Hnot Hin. apply Hnot. by apply Hcut.
    + intros v (l & Hl & Hv). rewrite Hlist in Hl. injection Hl as <-.
      apply list_elem_of_filter in Hv as [Hv1 Hv2].
      by destruct (Hseen v Hv2).
    + intros v (l & Hl & Hv). rewrite Ha0 in Hl. injection Hl as <-.
      destruct (Hseen v Hv); [by right|by left].
  - assert (neighbors_of (heap (rd st1)) sg n = []) as ->.
    { unfold neighbors_of. change (graph_at (heap (rd st1)) sg) with (view sg st).
      by rewrite Hn. }
    exists st1. split; [done|]. split; try done.
    + by rewrite Ha0.
    + intros v (l & Hl & Hv).
      change (view sg st1) with (view sg st) in Hl. congruence.
    + intros v (l & Hl & Hv). congruence.
Qed.

Lemma rc_dfs_spec fuel : rc_ok fuel (RemoveCycles.dfs sg fuel).
Proof.
  induction fuel as [|fuel IH]; intros st n HR He Hnp Hnv Hf.
  { unfold enough in Hf. lia. }
  cbn [RemoveCycles.dfs].
  destruct (rc_loop_from_entry fuel st n IH HR He Hnp Hnv Hf)
    as (st2 & Hrun & HLP).
  cbn [rd] in Hrun. cbn [rd]. rewrite Hrun.
  destruct (RInv_leave _ st2 (pathStack (rd st)) n HLP) as (HR3 & Hps3 & Hv3 & Hview3).
  destruct HLP as [_ Hps2 _ _ _ [Hfv Hfr Hff Hfn]].
  eexists. split; [done|]. split_and!; try done.
  - rewrite Hv3. apply elem_of_app. right. left.
  - split.
    + rewrite Hv3. by apply prefix_app_r.
    + done.
    + intros u Hu _. rewrite Hview3. apply Hff.
      * apply elem_of_app. by left.
      * intros [= ->]. done.
    + intros e He' Hnew. right. destruct (Hfn e He' Hnew) as [[= ->]|Hn]; [done|].
      intros Hin. apply Hn. apply elem_of_app. by left.
Qed.

End Elim.

(** ** [removeCycles]: runs *)

Lemma kept_nil u a : kept [] u a = a.
Proof. unfold kept. apply filter_all. intros v _ Hin. by apply elem_of_nil in Hin. Qed.

Lemma edge_kept (G0 D : gmap string (list string)) removed :
  (∀ u, D !! u = kept removed u <$> G0 !! u) →
  ∀ u v, edge D u v → edge G0 u v.
Proof.
  intros Hk u v (l & Hl & Hv). rewrite Hk in Hl.
  destruct (G0 !! u) as [a|] eqn:Ha; [|done]. injection Hl as <-.
  exists a. split; [done|]. unfold kept in Hv.
  by apply list_elem_of_filter in Hv as [_ ?].
Qed.

Lemma removeCycles_spec h g s :
  ∃ h' res, removeCycles h g s = Some (h', res) ∧ elim_ok h g s h' res.
Proof.
  unfold removeCycles, json_stringify.
  destruct (json_parse (graph_at h g) h) as [h1 sg] eqn:Hparse.
  destruct (json_parse_spec _ _ _ _ Hparse) as (Hview & Hpres & Hown & Hpriv).
  set (G0 := graph_at h g) in *.
  assert (RInv h G0 sg s (mkR (mkD h1 [] [] []) [])) as HR0.
  { split; cbn [rd removedLog visited pathStack heap];
      first [ done | apply PInv_init | apply topo_nil
            | by intros ? ?%elem_of_nil | by intros ? ? ?%elem_of_nil
            | (intros u _ _; unfold view; simpl; by rewrite Hview) ]. }
  rewrite Hview. destruct (G0 !! s) as [l|] eqn:Hs.
  - assert (entry_ok G0 s (mkD h1 [] [] []) s) as He.
    { split_and!; [done|apply key_in_node_list; by rewrite Hs|done]. }
    destruct (rc_dfs_spec h G0 sg s (fuel_for G0) _ s HR0 He)
      as (st & Hrun & HR & Hps & Hvis & _);
      [by intros ?%elem_of_nil|by intros ?%elem_of_nil|apply enough_init|].
    rewrite Hrun. eexists _, _. split; [done|]. simpl in Hps.
    split; cbn [safeGraph removedEdges]; fold G0;
      change (graph_at (heap (rd st)) sg) with (view sg st).
    + intros v Hv.
      eapply topo_acyclic; [apply (rinv_topo HR)|apply (pinv_vis_nodup (rinv_path HR))|].
      eapply closed_reach; [apply (rinv_closed HR)|done..].
    + intros u. destruct (decide (u ∈ visited (rd st))) as [Hu|Hu].
      * by apply (rinv_done HR).
      * rewrite (rinv_fresh HR u Hu) by (rewrite Hps; by intros ?%elem_of_nil).
        destruct (G0 !! u) as [a|]; [simpl|done]. f_equal. symmetry.
        apply filter_all. intros v _ Hin.
        destruct (rinv_sources HR _ Hin) as [Hsrc|Hsrc]; simpl in Hsrc; [done|].
        rewrite Hps in Hsrc. by apply elem_of_nil in Hsrc.
    + apply (rinv_back HR).
    + apply (rinv_pres HR).
    + apply (rinv_priv HR).
    + apply (rinv_own HR).
  - eexists _, _. split; [done|].
    split; cbn [safeGraph removedEdges]; fold G0; rewrite ?Hview; try done.
    + intros v Hv Hc.
      assert (v = s) as ->.
      { apply rtc_inv in Hv as [->|(y & (l & Hl & _) & _)]; [done|congruence]. }
      assert (∃ y, edge G0 s y) as (y & l & Hl & _).
      { inversion Hc; eauto. }
      congruence.
    + intros u. destruct (G0 !! u); [simpl|done]. by rewrite kept_nil.
    + intros e He. by apply elem_of_nil in He.
Qed.

(** No cycle of the result can be reached from the start node through
    the result either. *)
Lemma elim_ok_acyclic h g s h' res :
  elim_ok h g s h' res →
  ∀ v, rtc (edge (graph_at h' (safeGraph res))) s v →
       ¬ tc (edge (graph_at h' (safeGraph res))) v v.
Proof.
  intros Hok v Hv. apply (eo_acyclic _ _ _ _ _ Hok).
  eapply rtc_subrel; [|exact Hv]. apply (edge_kept _ _ _ (eo_kept _ _ _ _ _ Hok)).
Qed.


(** C5 fails as stated: on scenario 1 from node 1, [removeCycles] does
    not remove the single edge (3,2), nor the single edge (3,1). *)
Lemma removeCycles_scenario1_not_single :
  ¬ ∃ h' res,
      removeCycles scenario1_heap scenario1_ref "1" = Some (h', res) ∧
      (removedEdges res = [mkEdge "3" "2"] ∨ removedEdges res = [mkEdge "3" "1"]).
Proof.
  intros (h' & res & Hrun & Hor). vm_compute in Hrun.
  injection Hrun as <- <-. by destruct Hor.
Qed.

(** C5, amended. On scenario 1 from node 1, [removeCycles] removes both
    back-edges of node 3, (3,1) and then (3,2), which is the order in
    which the reverse scan of the successor list meets them; the result
    is the graph 1 -> 2, 7; 2 -> 3, 4; 3 -> nothing, and no cycle of it
    can be reached from node 1. *)
Theorem removeCycles_scenario1 :
  ∃ h' res,
    removeCycles scenario1_heap scenario1_ref "1" = Some (h', res) ∧
    removedEdges res = [mkEdge "3" "1"; mkEdge "3" "2"] ∧
    graph_at h' (safeGraph res)
    = list_to_map [("1", ["2"; "7"]); ("2", ["3"; "4"]); ("3", [])]%string ∧
    ¬ cycle_reachable (graph_at h' (safeGraph res)) "1"%string.
Proof.
  destruct (removeCycles_spec scenario1_heap scenario1_ref "1")
    as (h' & res & Hrun & Hok).
  exists h', res. split; [done|].
  split_and!.
  - vm_compute in Hrun. by injection Hrun as <- <-.
  - vm_compute in Hrun. injection Hrun as <- <-. vm_compute. reflexivity.
  - intros (v & Hv & Hc). by apply (elim_ok_acyclic _ _ _ _ _ Hok v).
Qed.


Lemma runDetection_total h g s : ∃ r, runDetection h g s = Some (h, r).
Proof.
  unfold runDetection. destruct (graph_at h g !! s) as [l|] eqn:Hl.
  - destruct (dfs_from_start h g s) as (st & r & Hrun & HI & _); [by rewrite Hl|].
    rewrite Hrun, (inv_heap HI). destruct r; eauto.
  - eauto.
Qed.


Lemma scenario1_valid : valid_graph scenario1_heap scenario1_ref.
Proof.
  destruct (json_parse_spec scenario1 empty_heap scenario1_heap scenario1_ref)
    as (_ & _ & (tbl & Ho & Harr & _) & _).
  { unfold scenario1_heap, scenario1_ref. by destruct (json_parse _ _). }
  by exists tbl.
Qed.


(** * Further properties of the code *)

(** ** [removeCycles]: edge cases and what it keeps *)

(** How a run of [runDetection] ends. *)
Lemma runDetection_cases h g s :
  (graph_at h g !! s = None ∧
   runDetection h g s
   = Some (h, mkResult false (Some (not_found_error s)) None None None None None None)) ∨
  (is_Some (graph_at h g !! s) ∧ ¬ cycle_reachable (graph_at h g) s ∧
   runDetection h g s
   = Some (h, mkResult false None None None None None None None)) ∨
  (is_Some (graph_at h g !! s) ∧ cycle_reachable (graph_at h g) s ∧
   ∃ st c, Inv h g s st ∧ found_post h g (mkD h [] [] []) st c ∧
     runDetection h g s
     = Some (h, mkResult true None (Some (pathStack st))
                  (Some (Js.push (Js.slice (pathStack st)
                                    (Js.indexOf (pathStack st) c)) c))
                  None None None None)).
Proof.
  unfold runDetection. destruct (graph_at h g !! s) as [l|] eqn:Hl.
  - right.
    destruct (dfs_from_start h g s) as (st & r & Hrun & HI & Hpre & Ht & Hpost);
      [by rewrite Hl|].
    rewrite Hrun, (inv_heap HI). destruct r as [|c].
    + left. destruct Hpost as [_ Hvis]. split_and!; [done| |done].
      by apply (visited_no_cycle h g s st).
    + right. destruct (found_cycle _ _ _ _ _ _ HI Hpost) as [Hcyc _].
      split_and!; [done|done|]. by exists st, c.
  - by left.
Qed.



Lemma back_edge_cycle (G : gmap string (list string)) s u v :
  edge G u v → rtc (edge G) s u → rtc (edge G) v u → cycle_reachable G s.
Proof.
  intros He Hs Hb. exists u. split; [done|].
  eapply tc_rtc_r; [by apply tc_once|done].
Qed.

Lemma kept_nil_graph (G0 D : gmap string (list string)) :
  (∀ u, D !! u = kept [] u <$> G0 !! u) → D = G0.
Proof.
  intros Hk. apply map_eq. intros u. rewrite Hk.
  destruct (G0 !! u); [simpl|done]. by rewrite kept_nil.
Qed.





(** ** The player: [nextStep], [prevStep], [goToStep] *)

Lemma navigate_in_range steps idx op :
  (0 ≤ idx < Z.of_nat (length steps))%Z →
  (0 ≤ navigate steps idx op < Z.of_nat (length steps))%Z.
Proof.
  intros Hidx. destruct op as [| |index]; simpl;
    unfold nextStep, prevStep, goToStep.
  - destruct (Z.ltb_spec idx (Z.of_nat (length steps) - 1)); lia.
  - destruct (Z.ltb_spec 0 idx); lia.
  - destruct (Z.leb_spec 0 index), (Z.ltb_spec index (Z.of_nat (length steps)));
      simpl; lia.
Qed.

(** X6. Whatever the user does with the player (next, previous, jump to
    any index, in any order), an index that points into the trace keeps
    pointing into it, so that [steps[currentStepIndex]] is always a
    record of the trace. *)
Theorem navigation_stays_in_range (steps : list Step) (idx : Z) (ops : list NavOp) :
  (0 ≤ idx < Z.of_nat (length steps))%Z →
  (0 ≤ foldl (navigate steps) idx ops < Z.of_nat (length steps))%Z ∧
  is_Some (steps !! Z.to_nat (foldl (navigate steps) idx ops)).
Proof.
  intros Hidx.
  assert (0 ≤ foldl (navigate steps) idx ops < Z.of_nat (length steps))%Z as Hr.
  { revert idx Hidx. induction ops as [|op ops IH]; intros idx Hidx; [done|].
    simpl. apply IH. by apply navigate_in_range. }
  split; [done|]. apply lookup_lt_is_Some. lia.
Qed.

Lemma navigation_stays_in_range_witness :
  (0 ≤ 0 < Z.of_nat (length [start_record "1"; start_record "2"]))%Z ∧
  (0 ≤ foldl (navigate [start_record "1"; start_record "2"]) 0%Z
         [NavNext; NavNext; NavGoTo 7; NavPrev; NavPrev]
     < Z.of_nat (length [start_record "1"; start_record "2"]))%Z ∧
  is_Some ([start_record "1"; start_record "2"]
             !! Z.to_nat (foldl (navigate [start_record "1"; start_record "2"]) 0%Z
                            [NavNext; NavNext; NavGoTo 7; NavPrev; NavPrev])).
Proof.
  assert (0 ≤ 0 < Z.of_nat (length [start_record "1"; start_record "2"]))%Z as H0
    by (simpl; lia).
  split; [exact H0|]. exact (navigation_stays_in_range _ _ _ H0).
Defined.

(** X7. Away from the two ends of the trace, [nextStep] and [prevStep]
    undo each other. *)
Theorem next_prev_round_trip (steps : list Step) (idx : Z) :
  (0 ≤ idx < Z.of_nat (length steps) - 1)%Z →
  prevStep (nextStep idx steps) = idx ∧
  nextStep (prevStep (idx + 1)) steps = (idx + 1)%Z.
Proof.
  intros Hidx. unfold nextStep, prevStep. split.
  - destruct (Z.ltb_spec idx (Z.of_nat (length steps) - 1)); [|lia].
    destruct (Z.ltb_spec 0 (idx + 1)); lia.
  - destruct (Z.ltb_spec 0 (idx + 1)); [|lia].
    replace (idx + 1 - 1)%Z with idx by lia.
    destruct (Z.ltb_spec idx (Z.of_nat (length steps) - 1)); lia.
Qed.

Lemma next_prev_round_trip_witness :
  (0 ≤ 0 < Z.of_nat (length [start_record "1"; start_record "2"]) - 1)%Z ∧
  prevStep (nextStep 0 [start_record "1"; start_record "2"]) = 0%Z ∧
  nextStep (prevStep (0 + 1)) [start_record "1"; start_record "2"] = (0 + 1)%Z.
Proof.
  assert (0 ≤ 0 < Z.of_nat (length [start_record "1"; start_record "2"]) - 1)%Z as H0
    by (simpl; lia).
  split; [exact H0|]. exact (next_prev_round_trip _ _ H0).
Defined.

(** ** [highlightGraph] *)

Lemma scan_spec loopPath e i count :
  Highlight.scan loopPath e i count = true ↔
  ∃ j, i ≤ j < i + count ∧ loopPath !! j = Some (source e) ∧
       loopPath !! S j = Some (target e).
Proof.
  revert i. induction count as [|count IH]; intros i; simpl.
  - split; [done|]. intros (j & Hj & _). lia.
  - destruct (bool_decide (loopPath !! i = Some (source e))
              && bool_decide (loopPath !! (i + 1) = Some (target e))) eqn:Hc.
    + apply andb_true_iff in Hc as [H1 H2]. apply bool_decide_eq_true in H1, H2.
      split; [intros _|done]. exists i. rewrite Nat.add_1_r in H2.
      split_and!; [lia|lia|done|done].
    + rewrite IH. split.
      * intros (j & Hj & H1 & H2). exists j. split_and!; [lia|lia|done|done].
      * intros (j & Hj & H1 & H2). destruct (decide (j = i)) as [->|Hne].
        -- rewrite <- Nat.add_1_r in H2.
           by rewrite !bool_decide_eq_true_2 in Hc.
        -- exists j. split_and!; [lia|lia|done|done].
Qed.

Lemma isInLoop_spec loopPath e :
  Highlight.isInLoop loopPath e = true ↔
  ∃ j, loopPath !! j = Some (source e) ∧ loopPath !! S j = Some (target e).
Proof.
  unfold Highlight.isInLoop. rewrite scan_spec. split.
  - intros (j & _ & H1 & H2). eauto.
  - intros (j & H1 & H2). exists j. pose proof (lookup_lt_Some _ _ _ H2).
    split_and!; [lia|lia|done|done].
Qed.

Lemma isInLoop_first_spec loopPath e :
  Highlight.isInLoop_first loopPath e = true ↔
  loopPath !! 0 = Some (source e) ∧ loopPath !! 1 = Some (target e).
Proof.
  unfold Highlight.isInLoop_first, Highlight.scan_first.
  destruct (length loopPath - 1) as [|k] eqn:Hlen.
  - split; [done|]. intros [_ H2]. apply lookup_lt_Some in H2. lia.
  - simpl. destruct (bool_decide (loopPath !! 0 = Some (source e))) eqn:H1,
             (bool_decide (loopPath !! 1 = Some (target e))) eqn:H2; simpl;
      try apply bool_decide_eq_true in H1; try apply bool_decide_eq_true in H2;
      try apply bool_decide_eq_false in H1; try apply bool_decide_eq_false in H2;
      split; try done; by intros [? ?].
Qed.

(** What [runDetection] returns as [loopPath]. *)
Lemma runDetection_loopPath h g s h' r lp :
  runDetection h g s = Some (h', r) → loopPath r = Some lp →
  closed_walk (graph_at h g) lp.
Proof.
  intros Hrun Hlp.
  destruct (runDetection_cases h g s)
    as [[_ Heq]|[(_ & _ & Heq)|(_ & _ & st & c & HI & Hpost & Heq)]];
    rewrite Heq in Hrun; injection Hrun as <- <-; try done.
  simpl in Hlp. injection Hlp as <-.
  by destruct (found_cycle _ _ _ _ _ _ HI Hpost).
Qed.

(** X8. [highlightGraph] in the second version of the application,
    called with the [loopPath] of [runDetection]: it highlights every
    consecutive pair of the loop, and every edge it highlights is an edge
    of the graph. *)
Theorem highlight_marks_loop_edges
    (h : Heap) (graphData : loc) (startNode : string) h' r lp :
  runDetection h graphData startNode = Some (h', r) →
  loopPath r = Some lp →
  (∀ i u v, lp !! i = Some u → lp !! S i = Some v →
            Highlight.isInLoop lp (mkEdge u v) = true) ∧
  (∀ e, Highlight.isInLoop lp e = true →
        edge (graph_at h graphData) (source e) (target e)).
Proof.
  intros Hrun Hlp.
  destruct (runDetection_loopPath _ _ _ _ _ _ Hrun Hlp) as (Hw & _ & _).
  split.
  - intros i u v Hu Hv. apply isInLoop_spec. by exists i.
  - intros e (j & H1 & H2)%isInLoop_spec. by apply (Hw j).
Qed.

Lemma scenario1_run :
  runDetection scenario1_heap scenario1_ref "1"
  = Some (scenario1_heap,
          mkResult true None (Some ["1"; "2"; "3"]%string)
                   (Some ["2"; "3"; "2"]%string) None None None None).
Proof. vm_compute. reflexivity. Qed.

Lemma highlight_marks_loop_edges_witness :
  runDetection scenario1_heap scenario1_ref "1"
  = Some (scenario1_heap,
          mkResult true None (Some ["1"; "2"; "3"]%string)
                   (Some ["2"; "3"; "2"]%string) None None None None) ∧
  (∀ i u v, ["2"; "3"; "2"]%string !! i = Some u →
            ["2"; "3"; "2"]%string !! S i = Some v →
            Highlight.isInLoop ["2"; "3"; "2"]%string (mkEdge u v) = true) ∧
  (∀ e, Highlight.isInLoop ["2"; "3"; "2"]%string e = true →
        edge (graph_at scenario1_heap scenario1_ref) (source e) (target e)).
Proof.
  split; [exact scenario1_run|].
  exact (highlight_marks_loop_edges _ _ _ _ _ _ scenario1_run eq_refl).
Defined.

(** X9. [highlightGraph] in src/src/App.jsx, called with the [loopPath]
    of [runDetection]: its loop ends after the first iteration, so the
    only edge it highlights is the first edge of the loop, the one that
    leaves the culprit. *)
Theorem highlight_first_edge_only
    (h : Heap) (graphData : loc) (startNode : string) h' r lp :
  runDetection h graphData startNode = Some (h', r) →
  loopPath r = Some lp →
  ∃ c n, lp !! 0 = Some c ∧ lp !! 1 = Some n ∧ last lp = Some c ∧
         edge (graph_at h graphData) c n ∧
         ∀ e, Highlight.isInLoop_first lp e = true ↔ e = mkEdge c n.
Proof.
  intros Hrun Hlp.
  destruct (runDetection_loopPath _ _ _ _ _ _ Hrun Hlp) as (Hw & Hlen & Hhl).
  destruct lp as [|c [|n lp]]; simpl in Hlen; try lia.
  exists c, n. split_and!; try done.
  - by apply (Hw 0).
  - intros [su tv]. rewrite isInLoop_first_spec. simpl. split.
    + by intros [[= ->] [= ->]].
    + by intros [= -> ->].
Qed.

Lemma highlight_first_edge_only_witness :
  runDetection scenario1_heap scenario1_ref "1"
  = Some (scenario1_heap,
          mkResult true None (Some ["1"; "2"; "3"]%string)
                   (Some ["2"; "3"; "2"]%string) None None None None) ∧
  ∃ c n, ["2"; "3"; "2"]%string !! 0 = Some c ∧
         ["2"; "3"; "2"]%string !! 1 = Some n ∧
         last ["2"; "3"; "2"]%string = Some c ∧
         edge (graph_at scenario1_heap scenario1_ref) c n ∧
         ∀ e, Highlight.isInLoop_first ["2"; "3"; "2"]%string e = true
              ↔ e = mkEdge c n.
Proof.
  split; [exact scenario1_run|].
  exact (highlight_first_edge_only _ _ _ _ _ _ scenario1_run eq_refl).
Defined.

(** ** The stop-at-first-cycle detector: result and shape of the trace *)

Lemma prefix_capture ts a n e ez ex (l : list Step) :
  l `prefix_of` stepsLog ts → l `prefix_of` stepsLog (captureState ts a n e ez ex).
Proof. intros Hl. simpl. unfold Js.push. by apply prefix_app_r. Qed.

Lemma stop_loop_trace rec cur :
  (∀ ts n ts' r, rec ts n = Some (ts', r) → stop_trace_post ts ts' r) →
  ∀ ns ts ts' r, StopAtFirst.dfs_loop rec cur ns ts = Some (ts', r) →
                 stop_trace_post ts ts' r.
Proof.
  intros Hrec. induction ns as [|n ns IH]; intros ts ts' r Hrun.
  - injection Hrun as <- <-. by split.
  - cbn [StopAtFirst.dfs_loop] in Hrun.
    destruct (rec (Emit.explore_neighbor ts cur n) n) as [[ts1 r1]|] eqn:Hr; [|done].
    apply Hrec in Hr as [Hp1 Hr1].
    assert (stepsLog ts `prefix_of` stepsLog ts1) as Hp.
    { etrans; [|exact Hp1]. by apply prefix_capture. }
    destruct r1 as [|c e].
    + apply IH in Hrun as [Hp2 Hr2]. split; [by etrans|done].
    + injection Hrun as <- <-. by split.
Qed.

Lemma stop_dfs_trace g fuel :
  ∀ ts n ts' r, StopAtFirst.dfs g fuel ts n = Some (ts', r) →
                stop_trace_post ts ts' r.
Proof.
  induction fuel as [|fuel IH]; intros ts n ts' r Hrun; [done|].
  cbn [StopAtFirst.dfs] in Hrun.
  set (ts1 := Emit.check_in_stack (Emit.enter_node ts n) n) in *.
  assert (stepsLog ts `prefix_of` stepsLog ts1) as Hp1
    by by do 2 apply prefix_capture.
  change (dstate ts1) with (dstate ts) in Hrun.
  destruct (Js.set_has (recursionStack (dstate ts)) n).
  { injection Hrun as <- <-. split; [by apply prefix_capture|].
    split; [done|]. eexists. split; [apply last_snoc|done]. }
  set (ts2 := Emit.check_visited ts1 n) in *.
  assert (stepsLog ts `prefix_of` stepsLog ts2) as Hp2 by by apply prefix_capture.
  change (dstate ts2) with (dstate ts) in Hrun.
  destruct (Js.set_has (visited (dstate ts)) n).
  { injection Hrun as <- <-. split; [by apply prefix_capture|done]. }
  set (ts4 := Emit.add_to_stack _ n) in *.
  assert (stepsLog ts `prefix_of` stepsLog ts4) as Hp4 by by apply prefix_capture.
  destruct (StopAtFirst.dfs_loop _ n _ ts4) as [[ts5 r5]|] eqn:Hl; [|done].
  apply (stop_loop_trace _ n IH) in Hl as [Hp5 Hr5].
  destruct r5 as [|c e]; injection Hrun as <- <-.
  - split; [|done]. do 2 apply prefix_capture. by etrans.
  - split; [by etrans|done].
Qed.

(** The runs of the two detectors side by side. *)
Lemma stop_run_cases h g s :
  is_Some (graph_at h g !! s) →
  ∃ st r0 ts r,
    dfs g (fuel_for (graph_at h g)) (mkD h [] [] []) s = Some (st, r0) ∧
    dfs_post h g s (mkD h [] [] []) s st r0 ∧
    StopAtFirst.dfs g (fuel_for (graph_at h g)) (trace_init h s) s = Some (ts, r) ∧
    dstate ts = st ∧ erase r = r0 ∧ stop_trace_post (trace_init h s) ts r.
Proof.
  intros Hs. destruct (dfs_from_start h g s Hs) as (st & r0 & Hrun & Hpost).
  pose proof (stop_dfs_refines g (fuel_for (graph_at h g)) (trace_init h s) s) as Hd.
  change (dstate (trace_init h s)) with (mkD h [] [] []) in Hd. rewrite Hrun in Hd.
  destruct Hd as (ts & r & Hrun' & Hst & Her).
  exists st, r0, ts, r. split_and!; try done. by eapply stop_dfs_trace.
Qed.





(** ** The skip-and-continue detector as a detector *)

Section SkipDetect.

Variables (h : Heap) (graphData : loc) (startNode : string).

Local Abbreviation G := (graph_at h graphData).
Local Abbreviation KInv := (KInv h graphData startNode).
Local Abbreviation entry_ok := (entry_ok (graph_at h graphData) startNode).
Local Abbreviation enough := (enough (graph_at h graphData)).
Local Abbreviation skip_ok := (skip_ok h graphData startNode).
Local Abbreviation skip_detect := (skip_detect (graph_at h graphData) startNode).
Local Abbreviation skip_detect_post :=
  (skip_detect_post (graph_at h graphData) startNode).

Lemma skip_detect_capture ts a n e ez ex :
  skip_detect ts → skip_detect (captureState ts a n e ez ex).
Proof. done. Qed.

(** A node met on the path closes a cycle. *)
Lemma path_closes_cycle st n u :
  Inv h graphData startNode st → n ∈ pathStack st →
  last (pathStack st) = Some u → edge G u n →
  closes_cycle G startNode (mkCycleEdge (Some u) n).
Proof.
  intros HI Hn Hu Hun. exists u. simpl. split_and!; try done.
  - apply (inv_reach HI). by apply last_Some_elem_of.
  - apply list_elem_of_split in Hn as (l1 & l2 & Hps).
    pose proof (inv_walk HI) as Hw. rewrite Hps in Hw, Hu.
    apply walk_app_r in Hw. rewrite last_app_cons in Hu. by eapply walk_rtc.
Qed.

Lemma skip_loop_detect fuel rec cur :
  skip_ok fuel rec →
  (∀ ts n ts' r, rec ts n = Some (ts', r) → KInv ts → entry_ok (dstate ts) n →
     enough fuel (dstate ts) → skip_detect ts → skip_detect_post ts [n] ts') →
  ∀ ns ts ts', SkipAndContinue.dfs_loop rec cur ns ts = Some ts' →
    KInv ts → enough fuel (dstate ts) →
    last (pathStack (dstate ts)) = Some cur → (∀ v, v ∈ ns → edge G cur v) →
    skip_detect ts → skip_detect_post ts ns ts'.
Proof.
  intros Hspec Hrec. induction ns as [|n ns IH]; intros ts ts' Hrun HK Hf Hlast Hns Hd.
  - injection Hrun as <-. split_and!; try done. by intros v ?%elem_of_nil.
  - cbn [SkipAndContinue.dfs_loop] in Hrun.
    set (ts1 := Emit.explore_neighbor ts cur n) in *.
    assert (KInv ts1) as HK1 by by apply KInv_capture.
    assert (entry_ok (dstate ts1) n) as He.
    { eapply entry_ok_neighbor; [apply (tinv_state (kinv_trace HK))|done|].
      apply Hns. left. }
    destruct (Hspec ts1 n HK1 He Hf) as (ts2 & r & Hr & HK2 & Hsub & Hps & _).
    rewrite Hr in Hrun.
    destruct (Hrec ts1 n ts2 r Hr HK1 He Hf Hd) as (Hd2 & Hseen2 & Hmono2).
    simpl in Hps, Hsub.
    destruct (skip_loop_spec h graphData startNode fuel rec cur Hspec ns ts2)
      as (ts3 & Hl & HK3 & Hsub3 & _); try done.
    { unfold enough in *. by rewrite Hps. }
    { by rewrite Hps. }
    { intros v Hv. apply Hns. by right. }
    assert (ts3 = ts') as -> by congruence.
    destruct (IH ts2 ts' Hrun) as (Hd3 & Hseen3 & Hmono3); try done.
    { unfold enough in *. by rewrite Hps. }
    { by rewrite Hps. }
    { intros v Hv. apply Hns. by right. }
    split_and!; [done| |by auto].
    intros v [->|Hv]%elem_of_cons; [|by apply Hseen3].
    destruct (Hseen2 n) as [Hn|Hn]; [left|left; by apply Hsub3|right; by apply Hmono3].
Qed.

Lemma skip_dfs_detect fuel :
  ∀ ts n ts' r, SkipAndContinue.dfs graphData fuel ts n = Some (ts', r) →
    KInv ts → entry_ok (dstate ts) n → enough fuel (dstate ts) →
    skip_detect ts → skip_detect_post ts [n] ts'.
Proof.
  induction fuel as [|fuel IH]; intros ts n ts' r Hrun HK He Hf [Hcl Htopo]; [done|].
  cbn [SkipAndContinue.dfs] in Hrun.
  set (ts1 := Emit.check_in_stack (Emit.enter_node ts n) n) in *.
  assert (KInv ts1) as HK1 by (do 2 (apply KInv_capture; [|done..]); done).
  pose proof (tinv_state (kinv_trace HK)) as HI.
  change (dstate ts1) with (dstate ts) in Hrun.
  destruct (Js.set_has (recursionStack (dstate ts)) n) eqn:Hrs.
  { apply set_has_true in Hrs. rewrite (inv_stack HI) in Hrs.
    injection Hrun as <- _. cbn [skippedLog captureState dstate]. unfold Js.push.
    change (skippedLog ts1) with (skippedLog ts).
    change (pathStack (dstate (captureState ts1 CYCLE_FOUND n _ _ _)))
      with (pathStack (dstate ts)).
    destruct (last (pathStack (dstate ts))) as [u|] eqn:Hlast.
    2:{ apply last_None in Hlast. rewrite Hlast in Hrs. by apply elem_of_nil in Hrs. }
    assert (skippedLog ts ++ [mkCycleEdge (Some u) n] ≠ []) as Hne
      by (by destruct (skippedLog ts)).
    split_and!; [split| |done].
    - simpl. apply Forall_app. split; [done|]. apply Forall_singleton.
      eapply path_closes_cycle; [done..|]. by apply He.
    - simpl. intros Hnil. by destruct Hne.
    - intros v _. by right. }
  apply set_has_false in Hrs. rewrite (inv_stack HI) in Hrs.
  set (ts2 := Emit.check_visited ts1 n) in *.
  assert (KInv ts2) as HK2 by by apply KInv_capture.
  change (dstate ts2) with (dstate ts) in Hrun.
  destruct (Js.set_has (visited (dstate ts)) n) eqn:Hvis.
  { apply set_has_true in Hvis. injection Hrun as <- _.
    split_and!; [by split| |done].
    intros v ->%list_elem_of_singleton. by left. }
  apply set_has_false in Hvis.
  destruct (Inv_enter h graphData startNode (dstate ts) n HI He Hrs Hvis)
    as [HI3 Hps3].
  set (ts3 := on_dstate (λ d, enter d n) ts2) in *.
  assert (KInv ts3) as HK3.
  { apply (KInv_update h graphData startNode ts2); [done|done|done|].
    apply closed_enter. apply (kinv_closed HK). }
  set (ts4 := Emit.add_to_stack ts3 n) in *.
  assert (KInv ts4) as HK4 by by apply KInv_capture.
  change (dstate ts4) with (enter (dstate ts) n) in Hrun.
  assert (enough fuel (dstate ts4)) as Hf4
    by by apply (enough_enter h graphData startNode fuel (dstate ts) n).
  assert (last (pathStack (dstate ts4)) = Some n) as Hlast4.
  { change (dstate ts4) with (enter (dstate ts) n). rewrite Hps3. apply last_snoc. }
  assert (∀ v, v ∈ neighbors_of (heap (enter (dstate ts) n)) graphData n →
               edge G n v) as Hnb.
  { intros v Hv. by apply (neighbors_edge h graphData startNode _ _ _ HI3). }
  destruct (SkipAndContinue.dfs_loop _ n _ ts4) as [ts5|] eqn:Hl; [|done].
  destruct (skip_loop_spec h graphData startNode fuel _ n
              (skip_dfs_spec h graphData startNode fuel) _ ts4 HK4 Hf4 Hlast4 Hnb)
    as (ts5' & Hl' & HK5 & Hsub5 & Hps5 & _).
  assert (ts5' = ts5) as -> by congruence.
  destruct (skip_loop_detect fuel _ n (skip_dfs_spec h graphData startNode fuel) IH
              _ ts4 ts5 Hl HK4 Hf4 Hlast4 Hnb) as ([Hcl5 Htopo5] & Hseen5 & Hmono5);
    [by split|].
  injection Hrun as <- _.
  change (dstate ts4) with (enter (dstate ts) n) in Hps5. rewrite Hps3 in Hps5.
  destruct (Inv_leave h graphData startNode (dstate ts5) (pathStack (dstate ts)) n
              (tinv_state (kinv_trace HK5)) Hps5) as (_ & _ & Hv7).
  split_and!; [split| |done].
  - done.
  - intros Hnil. change (topo G (visited (leave (dstate ts5) n))). rewrite Hv7.
    apply topo_snoc; [by apply Htopo5|].
    intros v Hv. destruct (Hseen5 v) as [?|Hne]; [|done|by destruct Hne].
    by apply (neighbors_edge h graphData startNode _ _ _ HI3).
  - intros v ->%list_elem_of_singleton. left.
    change (n ∈ visited (leave (dstate ts5) n)). rewrite Hv7.
    apply elem_of_app. right. left.
Qed.

End SkipDetect.



(** ** [removeCycles] never disconnects a node *)

Lemma walk_from_head G ps s v :
  walk G ps → head ps = Some s → v ∈ ps → rtc (edge G) s v.
Proof.
  intros Hw Hh Hv. apply list_elem_of_split in Hv as (l1 & l2 & ->).
  replace (l1 ++ v :: l2) with ((l1 ++ [v]) ++ l2) in Hw, Hh
    by (by rewrite <- app_assoc).
  apply walk_app_l in Hw.
  destruct (l1 ++ [v]) as [|x l] eqn:Hl; [by destruct l1|].
  simpl in Hh. injection Hh as ->.
  apply (walk_rtc G l s v Hw). by rewrite <- Hl, last_snoc.
Qed.

Lemma elem_of_delete_other {A} (l : list A) i x v :
  l !! i = Some v → x ≠ v → x ∈ l → x ∈ delete i l.
Proof.
  intros Hi Hne Hx. apply list_elem_of_lookup in Hx as [j Hj].
  destruct (decide (j < i)) as [Hlt|Hge].
  - apply list_elem_of_lookup. exists j. by rewrite list_lookup_delete_lt.
  - assert (j ≠ i) by (intros ->; congruence).
    apply list_elem_of_lookup. exists (pred j).
    rewrite list_lookup_delete_ge by lia.
    by replace (S (pred j)) with j by lia.
Qed.

(** Removing a back-edge to a node of the path keeps everything within
    reach. *)
Lemma reach_after_delete (V : gmap string (list string)) ps s cur a i v :
  walk V ps → NoDup ps → (∀ x, head ps = Some x → x = s) →
  last ps = Some cur → V !! cur = Some a → a !! i = Some v → v ∈ ps →
  let V' := <[cur := delete i a]> V in
  walk V' ps ∧ ∀ x, rtc (edge V) s x → rtc (edge V') s x.
Proof.
  intros Hw Hnd Hh Hlast Ha Hi Hv V'.
  assert (walk V' ps) as Hw'.
  { intros j u w Hu Hw2. destruct (Hw j u w Hu Hw2) as (l & Hl & Hin).
    assert (cur ≠ u) as Hne.
    { intros <-. rewrite last_lookup in Hlast.
      pose proof (NoDup_lookup _ _ _ _ Hnd Hu Hlast) as Heq.
      apply lookup_lt_Some in Hw2. lia. }
    exists l. split; [|done]. unfold V'. by rewrite lookup_insert_ne. }
  split; [done|].
  assert (rtc (edge V') s v) as Hsv.
  { destruct ps as [|x ps']; [by apply elem_of_nil in Hv|].
    eapply walk_from_head; [exact Hw'| |done]. simpl. f_equal. by apply Hh. }
  intros x Hx. revert x Hx. apply rtc_ind_r; [done|].
  intros y z Hsy Hyz IH.
  destruct (decide (y = cur ∧ z = v)) as [[-> ->]|Hne]; [done|].
  eapply rtc_r; [exact IH|].
  destruct Hyz as (l & Hl & Hin). unfold V'.
  destruct (decide (cur = y)) as [<-|Hny].
  - rewrite Ha in Hl. injection Hl as <-.
    exists (delete i a). rewrite lookup_insert_eq. split; [done|].
    eapply elem_of_delete_other; [done| |done]. intros ->. by apply Hne.
  - exists l. by rewrite lookup_insert_ne.
Qed.

Section ElimReach.

Variables (h0 : Heap) (G0 : gmap string (list string)) (sg : loc)
          (startNode : string).

Local Abbreviation RInv := (RInv h0 G0 sg startNode).
Local Abbreviation rc_ok := (rc_ok h0 G0 sg startNode).
Local Abbreviation reach_inv := (reach_inv sg startNode).
Local Abbreviation entry_view := (entry_view sg startNode).

Lemma rc_loop_reach fuel rec cur a0 ps :
  rc_ok fuel rec →
  (∀ st n st', rec st n = Some st' → RInv st → entry_ok G0 startNode (rd st) n →
     n ∉ pathStack (rd st) → n ∉ visited (rd st) → enough G0 fuel (rd st) →
     reach_inv st → entry_view st n → reach_inv st') →
  G0 !! cur = Some a0 → last ps = Some cur →
  ∀ k st st', RemoveCycles.dfs_loop rec sg cur k st = Some st' →
    RInv st → pathStack (rd st) = ps → enough G0 fuel (rd st) →
    (∃ a, view sg st !! cur = Some a ∧ k ≤ length a ∧ a ⊆ a0) →
    reach_inv st →
    reach_inv st' ∧ RInv st' ∧ pathStack (rd st') = ps.
Proof.
  intros Hspec Hrec Ha0 Hlast.
  induction k as [|i IH]; intros st st' Hrun HR Hps Hf (a & Ha & Hk & Hsub) HRI.
  { injection Hrun as <-. done. }
  pose proof (rinv_path HR) as HP.
  destruct (lookup_lt_is_Some_2 a i) as [v Hv]; [lia|].
  assert (edge (view sg st) cur v) as Hcv.
  { exists a. split; [done|]. by eapply list_elem_of_lookup_2. }
  assert (edge G0 cur v) as Hcv0.
  { exists a0. split; [done|]. apply Hsub. by eapply list_elem_of_lookup_2. }
  assert (Js.show (neighbors_of (heap (rd st)) sg cur !! i) = v) as Hnb.
  { unfold neighbors_of. change (graph_at (heap (rd st)) sg) with (view sg st).
    rewrite Ha. simpl. by rewrite Hv. }
  cbn [RemoveCycles.dfs_loop] in Hrun. rewrite Hnb in Hrun.
  destruct (Js.set_has (recursionStack (rd st)) v) eqn:Hrs.
  - apply set_has_true in Hrs. rewrite (pinv_stack HP) in Hrs.
    destruct (RInv_splice h0 G0 sg startNode st cur a i v HR
                (eq_ind_r (λ l, last l = Some cur) Hlast Hps) Ha Hcv0 Hrs)
      as (h' & Hsp & HR' & Hview').
    rewrite Hsp in Hrun. cbv zeta in HR', Hview'.
    apply IH in Hrun; try done.
    + exists (delete i a). rewrite Hview', lookup_insert_eq.
      split_and!; [done| |].
      * rewrite length_delete by (by eexists). lia.
      * intros x Hx. apply Hsub. by eapply list_elem_of_delete_inv.
    + destruct HRI as (Hw & Hh & Hvis).
      destruct (reach_after_delete (view sg st) (pathStack (rd st)) startNode
                  cur a i v Hw (pinv_nodup HP) Hh) as [Hw' Hreach]; try done.
      { by rewrite Hps. }
      split; [|split].
      * by rewrite Hview'.
      * done.
      * intros x Hx. rewrite Hview'. by apply Hreach, Hvis.
  - destruct (Js.set_has (visited (rd st)) v) eqn:Hvis.
    + apply IH in Hrun; try done. exists a. split_and!; [done|lia|done].
    + apply set_has_false in Hrs, Hvis. rewrite (pinv_stack HP) in Hrs.
      destruct (rec st v) as [st1|] eqn:Hr; [|done].
      assert (entry_ok G0 startNode (rd st) v) as He.
      { eapply path_entry_ok_neighbor; [done|by rewrite Hps|done]. }
      destruct (Hspec st v HR He Hrs Hvis Hf) as (st1' & Hr' & HR1 & Hps1 & _ & Hfr).
      assert (st1' = st1) as -> by congruence.
      assert (reach_inv st1) as HRI1.
      { eapply Hrec; try done. split.
        - intros u Hu. rewrite Hps, Hlast in Hu. by injection Hu as <-.
        - intros Hnil. rewrite Hps in Hnil. rewrite Hnil in Hlast. done. }
      apply IH in Hrun; try done.
      * congruence.
      * unfold enough in *. by rewrite Hps1.
      * exists a. split_and!; [|lia|done].
        rewrite (fr_view _ _ _ _ _ Hfr); [done| |done].
        rewrite Hps. by apply last_Some_elem_of.
Qed.

Lemma rc_dfs_reach fuel :
  ∀ st n st', RemoveCycles.dfs sg fuel st n = Some st' → RInv st →
    entry_ok G0 startNode (rd st) n →
    n ∉ pathStack (rd st) → n ∉ visited (rd st) → enough G0 fuel (rd st) →
    reach_inv st → entry_view st n → reach_inv st'.
Proof.
  induction fuel as [|fuel IH]; intros st n st' Hrun HR He Hnp Hnv Hf HRI Hev; [done|].
  cbn [RemoveCycles.dfs] in Hrun.
  destruct (RInv_enter h0 G0 sg startNode st n HR He Hnp Hnv) as [HR1 Hps1].
  set (st1 := mkR (enter (rd st) n) (removedLog st)) in *.
  assert (view sg st !! n = G0 !! n) as Hn by by apply (rinv_fresh HR).
  assert (enough G0 fuel (rd st1)) as Hf1.
  { apply (path_enough_enter G0 startNode); [apply (rinv_path HR1)|done..]. }
  destruct HRI as (Hw & Hh & Hvis). destruct Hev as [Hedge Hnil].
  assert (reach_inv st1) as HRI1.
  { split; [|split].
    - change (walk (view sg st) (pathStack (enter (rd st) n))). rewrite Hps1.
      by apply walk_snoc.
    - change (∀ x, head (pathStack (enter (rd st) n)) = Some x → x = startNode).
      rewrite Hps1. intros x Hx. destruct (pathStack (rd st)) as [|y l] eqn:Hp.
      + simpl in Hx. injection Hx as <-. by apply Hnil.
      + by apply Hh.
    - done. }
  assert (∃ st2, RemoveCycles.dfs_loop (RemoveCycles.dfs sg fuel) sg n
                   (length (neighbors_of (heap (rd st1)) sg n)) st1 = Some st2 ∧
                 reach_inv st2 ∧ RInv st2 ∧
                 pathStack (rd st2) = pathStack (rd st) ++ [n])
    as (st2 & Hl & (Hw2 & Hh2 & Hvis2) & HR2 & Hps2).
  { destruct (RemoveCycles.dfs_loop _ sg n _ st1) as [st2|] eqn:Hl; [|done].
    exists st2. split; [done|].
    destruct (G0 !! n) as [a0|] eqn:Ha0.
    - assert (neighbors_of (heap (rd st1)) sg n = a0) as Hnb.
      { unfold neighbors_of. change (graph_at (heap (rd st1)) sg) with (view sg st).
        by rewrite Hn. }
      rewrite Hnb in Hl.
      eapply (rc_loop_reach fuel _ n a0 (pathStack (rd st) ++ [n])
                (rc_dfs_spec h0 G0 sg startNode fuel) IH Ha0 (last_snoc _ _)
                (length a0) st1 st2 Hl); try done.
      exists a0. by split_and!.
    - assert (neighbors_of (heap (rd st1)) sg n = []) as Hnb.
      { unfold neighbors_of. change (graph_at (heap (rd st1)) sg) with (view sg st).
        by rewrite Hn. }
      rewrite Hnb in Hl. injection Hl as <-. done. }
  rewrite Hl in Hrun. injection Hrun as <-.
  destruct (PInv_leave G0 startNode (rd st2) (pathStack (rd st)) n
              (rinv_path HR2) Hps2) as (_ & Hps3 & Hv3).
  split; [|split]; cbn [rd]; change (view sg (mkR (leave (rd st2) n) (removedLog st2)))
    with (view sg st2).
  - rewrite Hps3. rewrite Hps2 in Hw2. by apply walk_app_l in Hw2.
  - rewrite Hps3. intros x Hx. apply Hh2. rewrite Hps2.
    destruct (pathStack (rd st)); [done|]. done.
  - rewrite Hv3. intros x [Hx|Hx]%elem_of_app; [by apply Hvis2|].
    apply list_elem_of_singleton in Hx as ->.
    destruct (pathStack (rd st2)) as [|y l] eqn:Hp; [by destruct (pathStack (rd st))|].
    eapply walk_from_head; [exact Hw2| |].
    + simpl. f_equal. by apply Hh2.
    + rewrite Hps2. apply elem_of_app. right. left.
Qed.

End ElimReach.


(** ** The replay of CYCLE_FOUND records *)

Lemma indexOf_nodup l i x :
  NoDup l → l !! i = Some x → Js.indexOf l x = Z.of_nat i.
Proof.
  intros Hnd Hi.
  destruct (indexOf_split l x) as (l1 & l2 & Hl & Hidx).
  { apply list_elem_of_lookup. eauto. }
  rewrite Hidx. f_equal.
  eapply NoDup_lookup; [exact Hnd| |exact Hi].
  rewrite Hl. by rewrite list_lookup_middle.
Qed.

Lemma indexOf_absent l x : x ∉ l → Js.indexOf l x = (-1)%Z.
Proof.
  induction l as [|y l IH]; intros Hx; [done|]. simpl.
  apply not_elem_of_cons in Hx as [Hne Hx].
  rewrite decide_False by done. rewrite (IH Hx). done.
Qed.

(** What the replay shows on a CYCLE_FOUND record. *)
Lemma replay_cycle_record G r :
  cycle_record G r → action r = CYCLE_FOUND →
  ∃ c, extra r = CycleExtra c ∧
       closed_walk G (cyclePath (s_pathStack r) c) ∧
       (∀ id, paints_cycle r id = true ↔ id ∈ cyclePath (s_pathStack r) c) ∧
       (∀ e, Highlight.isInLoop (cyclePath (s_pathStack r) c) e = true →
             edge G (source e) (target e)).
Proof.
  intros (Hnd & Hw & Hc) Ha. destruct (Hc Ha) as (c & u & Hex & Hin & Hu & Huc).
  exists c. split; [done|].
  destruct (indexOf_split _ _ Hin) as (l1 & l2 & Hps & Hidx).
  assert (cyclePath (s_pathStack r) c = (c :: l2) ++ [c]) as Hcp.
  { unfold cyclePath. rewrite Hidx, slice_nat, Hps. by rewrite drop_app_length. }
  assert (closed_walk G ((c :: l2) ++ [c])) as Hcw.
  { rewrite Hps in Hw, Hu. apply walk_app_r in Hw. rewrite last_app_cons in Hu.
    split_and!.
    - apply walk_snoc; [done|]. intros u' Hu'. rewrite Hu in Hu'.
      by injection Hu' as <-.
    - rewrite length_app. simpl. lia.
    - by rewrite last_snoc. }
  rewrite Hcp. split_and!; [done| |].
  - intros id. unfold paints_cycle, isInCycle, s_cycleNode. rewrite Hex, Ha.
    rewrite bool_decide_eq_true_2 by done. rewrite andb_true_l.
    rewrite andb_true_iff, orb_true_iff, !bool_decide_eq_true, Z.leb_le, Hidx.
    split.
    + intros [Hid [Hle|Heq]]; [|injection Heq as ->; left].
      apply list_elem_of_lookup in Hid as [i Hi].
      rewrite (indexOf_nodup _ _ _ Hnd Hi) in Hle.
      rewrite Hps, lookup_app_r in Hi by lia.
      apply elem_of_app. left. apply list_elem_of_lookup. eauto.
    + intros [Hid| ->%list_elem_of_singleton]%elem_of_app; [|split; [done|by right]].
      assert (id ∈ s_pathStack r) as Hid'.
      { rewrite Hps. apply elem_of_app. by right. }
      split; [done|]. left.
      apply list_elem_of_lookup in Hid as [j Hj].
      assert (s_pathStack r !! (length l1 + j) = Some id) as Hi.
      { rewrite Hps, lookup_app_r by lia. by replace (length l1 + j - length l1) with j by lia. }
      rewrite (indexOf_nodup _ _ _ Hnd Hi). lia.
  - intros e (j & H1 & H2)%isInLoop_spec. destruct Hcw as [Hw' _]. by apply (Hw' j).
Qed.

Section Records.

Variables (h : Heap) (graphData : loc) (startNode : string).

Local Abbreviation G := (graph_at h graphData).
Local Abbreviation Inv := (Inv h graphData startNode).
Local Abbreviation TInv := (TInv h graphData startNode).
Local Abbreviation KInv := (KInv h graphData startNode).
Local Abbreviation entry_ok := (entry_ok (graph_at h graphData) startNode).
Local Abbreviation enough := (enough (graph_at h graphData)).
Local Abbreviation stop_ok := (stop_ok h graphData startNode).
Local Abbreviation skip_ok := (skip_ok h graphData startNode).
Local Abbreviation records_ok := (Forall (cycle_record (graph_at h graphData))).

Lemma records_capture ts a n e ez ex :
  Inv (dstate ts) → records_ok (stepsLog ts) → a ≠ CYCLE_FOUND →
  records_ok (stepsLog (captureState ts a n e ez ex)).
Proof.
  intros HI Hl Ha. simpl. unfold Js.push. apply Forall_app. split; [done|].
  apply Forall_singleton. split_and!; simpl;
    [apply (pinv_nodup (inv_path HI))|apply (inv_walk HI)|done].
Qed.

Lemma records_capture_cycle ts n u e ez :
  Inv (dstate ts) → records_ok (stepsLog ts) →
  n ∈ pathStack (dstate ts) → last (pathStack (dstate ts)) = Some u → edge G u n →
  records_ok (stepsLog (captureState ts CYCLE_FOUND n e ez (CycleExtra n))).
Proof.
  intros HI Hl Hn Hu Hun. simpl. unfold Js.push. apply Forall_app. split; [done|].
  apply Forall_singleton. split_and!; simpl;
    [apply (pinv_nodup (inv_path HI))|apply (inv_walk HI)|]. intros _. by exists n, u.
Qed.

Lemma skip_loop_records fuel rec cur :
  skip_ok fuel rec →
  (∀ ts n ts' r, rec ts n = Some (ts', r) → KInv ts → entry_ok (dstate ts) n →
     enough fuel (dstate ts) → records_ok (stepsLog ts) → records_ok (stepsLog ts')) →
  ∀ ns ts ts', SkipAndContinue.dfs_loop rec cur ns ts = Some ts' →
    KInv ts → enough fuel (dstate ts) →
    last (pathStack (dstate ts)) = Some cur → (∀ v, v ∈ ns → edge G cur v) →
    records_ok (stepsLog ts) → records_ok (stepsLog ts').
Proof.
  intros Hspec Hrec. induction ns as [|n ns IH]; intros ts ts' Hrun HK Hf Hlast Hns Hd.
  - by injection Hrun as <-.
  - cbn [SkipAndContinue.dfs_loop] in Hrun.
    set (ts1 := Emit.explore_neighbor ts cur n) in *.
    assert (KInv ts1) as HK1 by by apply KInv_capture.
    assert (records_ok (stepsLog ts1)) as Hd1.
    { apply records_capture; [apply (tinv_state (kinv_trace HK))|done|done]. }
    assert (entry_ok (dstate ts1) n) as He.
    { eapply entry_ok_neighbor; [apply (tinv_state (kinv_trace HK))|done|].
      apply Hns. left. }
    destruct (Hspec ts1 n HK1 He Hf) as (ts2 & r & Hr & HK2 & Hsub & Hps & _).
    rewrite Hr in Hrun.
    pose proof (Hrec ts1 n ts2 r Hr HK1 He Hf Hd1) as Hd2.
    simpl in Hps. apply (IH ts2 ts' Hrun); try done.
    + unfold enough in *. by rewrite Hps.
    + by rewrite Hps.
    + intros v Hv. apply Hns. by right.
Qed.

Lemma skip_dfs_records fuel :
  ∀ ts n ts' r, SkipAndContinue.dfs graphData fuel ts n = Some (ts', r) →
    KInv ts → entry_ok (dstate ts) n → enough fuel (dstate ts) →
    records_ok (stepsLog ts) → records_ok (stepsLog ts').
Proof.
  induction fuel as [|fuel IH]; intros ts n ts' r Hrun HK He Hf Hd; [done|].
  cbn [SkipAndContinue.dfs] in Hrun.
  pose proof (tinv_state (kinv_trace HK)) as HI.
  set (ts1 := Emit.check_in_stack (Emit.enter_node ts n) n) in *.
  assert (KInv ts1) as HK1 by (do 2 (apply KInv_capture; [|done..]); done).
  assert (records_ok (stepsLog ts1)) as Hd1.
  { apply records_capture; [done| |done]. by apply records_capture. }
  change (dstate ts1) with (dstate ts) in Hrun.
  destruct (Js.set_has (recursionStack (dstate ts)) n) eqn:Hrs.
  { apply set_has_true in Hrs. rewrite (inv_stack HI) in Hrs.
    injection Hrun as <- _.
    destruct (last (pathStack (dstate ts))) as [u|] eqn:Hlast.
    2:{ apply last_None in Hlast. rewrite Hlast in Hrs. by apply elem_of_nil in Hrs. }
    apply records_capture; [done| |done].
    apply (records_capture_cycle ts1 n u); try done. by apply He. }
  apply set_has_false in Hrs. rewrite (inv_stack HI) in Hrs.
  set (ts2 := Emit.check_visited ts1 n) in *.
  assert (KInv ts2) as HK2 by by apply KInv_capture.
  assert (records_ok (stepsLog ts2)) as Hd2 by by apply records_capture.
  change (dstate ts2) with (dstate ts) in Hrun.
  destruct (Js.set_has (visited (dstate ts)) n) eqn:Hvis.
  { injection Hrun as <- _. by apply records_capture. }
  apply set_has_false in Hvis.
  destruct (Inv_enter h graphData startNode (dstate ts) n HI He Hrs Hvis)
    as [HI3 Hps3].
  set (ts3 := on_dstate (λ d, enter d n) ts2) in *.
  assert (KInv ts3) as HK3.
  { apply (KInv_update h graphData startNode ts2); [done|done|done|].
    apply closed_enter. apply (kinv_closed HK). }
  set (ts4 := Emit.add_to_stack ts3 n) in *.
  assert (KInv ts4) as HK4 by by apply KInv_capture.
  assert (records_ok (stepsLog ts4)) as Hd4 by by apply records_capture.
  change (dstate ts4) with (enter (dstate ts) n) in Hrun.
  assert (enough fuel (dstate ts4)) as Hf4
    by by apply (enough_enter h graphData startNode fuel (dstate ts) n).
  assert (last (pathStack (dstate ts4)) = Some n) as Hlast4.
  { change (dstate ts4) with (enter (dstate ts) n). rewrite Hps3. apply last_snoc. }
  assert (∀ v, v ∈ neighbors_of (heap (enter (dstate ts) n)) graphData n →
               edge G n v) as Hnb.
  { intros v Hv. by apply (neighbors_edge h graphData startNode _ _ _ HI3). }
  destruct (SkipAndContinue.dfs_loop _ n _ ts4) as [ts5|] eqn:Hl; [|done].
  destruct (skip_loop_spec h graphData startNode fuel _ n
              (skip_dfs_spec h graphData startNode fuel) _ ts4 HK4 Hf4 Hlast4 Hnb)
    as (ts5' & Hl' & HK5 & Hsub5 & Hps5 & _).
  assert (ts5' = ts5) as -> by congruence.
  pose proof (skip_loop_records fuel _ n (skip_dfs_spec h graphData startNode fuel) IH
                _ ts4 ts5 Hl HK4 Hf4 Hlast4 Hnb Hd4) as Hd5.
  injection Hrun as <- _.
  change (dstate ts4) with (enter (dstate ts) n) in Hps5. rewrite Hps3 in Hps5.
  pose proof (tinv_state (kinv_trace HK5)) as HI5.
  destruct (Inv_leave h graphData startNode (dstate ts5) (pathStack (dstate ts)) n
              HI5 Hps5) as (HI7 & _ & _).
  apply records_capture; [done| |done].
  change (records_ok (stepsLog (Emit.backtrack ts5 n))).
  by apply records_capture.
Qed.

Lemma stop_loop_records fuel rec cur :
  stop_ok fuel rec →
  (∀ ts n ts' r, rec ts n = Some (ts', r) → TInv ts → entry_ok (dstate ts) n →
     enough fuel (dstate ts) → records_ok (stepsLog ts) → records_ok (stepsLog ts')) →
  ∀ ns ts ts' r, StopAtFirst.dfs_loop rec cur ns ts = Some (ts', r) →
    TInv ts → enough fuel (dstate ts) →
    last (pathStack (dstate ts)) = Some cur → (∀ v, v ∈ ns → edge G cur v) →
    records_ok (stepsLog ts) → records_ok (stepsLog ts').
Proof.
  intros Hspec Hrec. induction ns as [|n ns IH]; intros ts ts' r Hrun HT Hf Hlast Hns Hd.
  - by injection Hrun as <- _.
  - cbn [StopAtFirst.dfs_loop] in Hrun.
    set (ts1 := Emit.explore_neighbor ts cur n) in *.
    assert (TInv ts1) as HT1 by by apply TInv_capture.
    assert (records_ok (stepsLog ts1)) as Hd1.
    { apply records_capture; [apply (tinv_state HT)|done|done]. }
    assert (entry_ok (dstate ts1) n) as He.
    { eapply entry_ok_neighbor; [apply (tinv_state HT)|done|]. apply Hns. left. }
    destruct (Hspec ts1 n HT1 He Hf) as (ts2 & r2 & Hr & HT2 & Hsub & Hps).
    rewrite Hr in Hrun.
    pose proof (Hrec ts1 n ts2 r2 Hr HT1 He Hf Hd1) as Hd2.
    destruct r2 as [|c e].
    + specialize (Hps eq_refl). simpl in Hps. apply (IH ts2 ts' r Hrun); try done.
      * unfold enough in *. by rewrite Hps.
      * by rewrite Hps.
      * intros v Hv. apply Hns. by right.
    + by injection Hrun as <- _.
Qed.

Lemma stop_dfs_records fuel :
  ∀ ts n ts' r, StopAtFirst.dfs graphData fuel ts n = Some (ts', r) →
    TInv ts → entry_ok (dstate ts) n → enough fuel (dstate ts) →
    records_ok (stepsLog ts) → records_ok (stepsLog ts').
Proof.
  induction fuel as [|fuel IH]; intros ts n ts' r Hrun HT He Hf Hd; [done|].
  cbn [StopAtFirst.dfs] in Hrun.
  pose proof (tinv_state HT) as HI.
  set (ts1 := Emit.check_in_stack (Emit.enter_node ts n) n) in *.
  assert (TInv ts1) as HT1 by (do 2 apply TInv_capture; done).
  assert (records_ok (stepsLog ts1)) as Hd1.
  { apply records_capture; [done| |done]. by apply records_capture. }
  change (dstate ts1) with (dstate ts) in Hrun.
  destruct (Js.set_has (recursionStack (dstate ts)) n) eqn:Hrs.
  { apply set_has_true in Hrs. rewrite (inv_stack HI) in Hrs.
    injection Hrun as <- _.
    destruct (last (pathStack (dstate ts))) as [u|] eqn:Hlast.
    2:{ apply last_None in Hlast. rewrite Hlast in Hrs. by apply elem_of_nil in Hrs. }
    apply (records_capture_cycle ts1 n u); try done. by apply He. }
  apply set_has_false in Hrs. rewrite (inv_stack HI) in Hrs.
  set (ts2 := Emit.check_visited ts1 n) in *.
  assert (TInv ts2) as HT2 by by apply TInv_capture.
  assert (records_ok (stepsLog ts2)) as Hd2 by by apply records_capture.
  change (dstate ts2) with (dstate ts) in Hrun.
  destruct (Js.set_has (visited (dstate ts)) n) eqn:Hvis.
  { injection Hrun as <- _. by apply records_capture. }
  apply set_has_false in Hvis.
  destruct (TInv_enter h graphData startNode ts2 n HT2 He Hrs Hvis) as [HT3 Hps3].
  set (ts3 := on_dstate (λ d, enter d n) ts2) in *.
  set (ts4 := Emit.add_to_stack ts3 n) in *.
  assert (TInv ts4) as HT4 by by apply TInv_capture.
  assert (records_ok (stepsLog ts4)) as Hd4.
  { apply records_capture; [apply (tinv_state HT3)|done|done]. }
  assert (enough fuel (dstate ts4)) as Hf4.
  { apply (enough_enter h graphData startNode fuel (dstate ts) n);
      [apply (tinv_state HT3)|done|done]. }
  assert (last (pathStack (dstate ts4)) = Some n) as Hlast4.
  { change (dstate ts4) with (dstate ts3). rewrite Hps3. apply last_snoc. }
  assert (∀ v, v ∈ neighbors_of (heap (dstate ts4)) graphData n → edge G n v) as Hnb.
  { intros v Hv.
    by apply (neighbors_edge h graphData startNode _ _ _ (tinv_state HT3)). }
  destruct (StopAtFirst.dfs_loop _ n _ ts4) as [[ts5 r5]|] eqn:Hl; [|done].
  destruct (stop_loop_spec h graphData startNode fuel _ n
              (stop_dfs_spec h graphData startNode fuel) _ ts4 HT4 Hf4 Hlast4 Hnb)
    as (ts5' & r5' & Hl' & HT5 & Hsub5 & Hps5).
  assert (ts5' = ts5 ∧ r5' = r5) as [-> ->] by (split; congruence).
  pose proof (stop_loop_records fuel _ n (stop_dfs_spec h graphData startNode fuel) IH
                _ ts4 ts5 r5 Hl HT4 Hf4 Hlast4 Hnb Hd4) as Hd5.
  destruct r5 as [|c e]; injection Hrun as <- _; [|done].
  specialize (Hps5 eq_refl). change (dstate ts4) with (dstate ts3) in Hps5.
  rewrite Hps3 in Hps5.
  set (ts6 := Emit.backtrack ts5 n) in *.
  assert (TInv ts6) as HT6 by by apply TInv_capture.
  destruct (TInv_leave h graphData startNode ts6 (pathStack (dstate ts)) n HT6 Hps5)
    as (HT7 & _ & _).
  apply records_capture; [apply (tinv_state HT7)| |done].
  change (records_ok (stepsLog ts6)).
  apply records_capture; [apply (tinv_state HT5)|done|done].
Qed.

End Records.




